(** * Circuit designer: parser, renderer, validator, zoom and export

    A shallow embedding of the JavaScript sources

    - [CircuitEngine] (circuit-engine script): [parseCircuitCode],
      [parseLine], [autoPosition], [generateCircuit], [drawConnection],
      [drawComponent], [exportPNG], [zoomIn], [zoomOut];
    - the page script (main.js): [validateCircuitCode], [exportPNG].

    JavaScript strings are sequences of UTF-16 code units, numbers are IEEE
    754 binary64 values (Rocq's primitive floats), arrays are lists, and the
    mutable engine object is an explicit state record threaded through the
    methods. *)

From Stdlib Require Import String Ascii List ZArith NArith Bool Lia.
From Stdlib Require Import Floats QArith DecimalString.
Import ListNotations.

Local Open Scope string_scope.
Local Open Scope N_scope.
Local Open Scope list_scope.

(** ** Strings *)

Module JsString.

(** A string is the list of its UTF-16 code units. *)
Definition str := list N.

(** A string literal of the source, all of whose characters are ASCII. *)
Fixpoint lit (s : string) : str :=
  match s with
  | EmptyString => []
  | String a r => N_of_ascii a :: lit r
  end.

Definition LF : N := 10.

(** Lines of a multi-line literal, joined by the line feed character. *)
Fixpoint text (ls : list string) : str :=
  match ls with
  | [] => []
  | [l] => lit l
  | l :: r => lit l ++ LF :: text r
  end.

Definition eqb (a b : str) : bool :=
  if list_eq_dec N.eq_dec a b then true else false.

(** WhiteSpace and LineTerminator code points of ECMAScript: what
    [String.prototype.trim] strips and what [\s] matches. *)
Definition isWhiteSpace (c : N) : bool :=
  ((9 <=? c) && (c <=? 13)) || (c =? 32) || (c =? 160) || (c =? 5760)
  || ((8192 <=? c) && (c <=? 8202)) || (c =? 8232) || (c =? 8233)
  || (c =? 8239) || (c =? 8287) || (c =? 12288) || (c =? 65279).

Fixpoint trimStart (s : str) : str :=
  match s with
  | c :: r => if isWhiteSpace c then trimStart r else s
  | [] => []
  end.

Definition trimEnd (s : str) : str := rev (trimStart (rev s)).

Definition trim (s : str) : str := trimEnd (trimStart s).

Fixpoint startsWith (s p : str) : bool :=
  match p, s with
  | [], _ => true
  | a :: p', b :: s' => (a =? b) && startsWith s' p'
  | _ :: _, [] => false
  end.

(** [s.split(sep)] for a one-character separator: never the empty array. *)
Fixpoint split (sep : N) (s : str) : list str :=
  match s with
  | [] => [[]]
  | c :: r =>
      if c =? sep then [] :: split sep r
      else match split sep r with
           | l :: ls => (c :: l) :: ls
           | [] => [[c]]
           end
  end.

(** [s.includes(p)] *)
Fixpoint includes (s p : str) : bool :=
  startsWith s p || match s with [] => false | _ :: r => includes r p end.

(** [toLowerCase] on the characters a [\w+] capture can hold: only the
    letters A-Z have a lower-case form there. *)
Definition lowerChar (c : N) : N :=
  if (65 <=? c) && (c <=? 90) then c + 32 else c.

Definition toLowerCase (s : str) : str := map lowerChar s.

Definition upperChar (c : N) : N :=
  if (97 <=? c) && (c <=? 122) then c - 32 else c.

Definition toUpperCase (s : str) : str := map upperChar s.

End JsString.

Import JsString.

(** ** Regular expressions

    The two patterns of the source use character classes, greedy [*], [+]
    and [?], capture groups and the anchors [^] and [$].  The matcher is the
    backtracking one of ECMAScript, written with a continuation: a greedy
    quantifier tries the longer match first and falls back when the rest of
    the pattern fails. *)

Module Regex.

Inductive re : Type :=
| Bol                        (* ^ , no multiline flag *)
| Eol                        (* $ , no multiline flag *)
| Cls (p : N -> bool)        (* one character of a class *)
| Star (p : N -> bool)       (* class*, greedy *)
| Plus (p : N -> bool)       (* class+, greedy *)
| Seq (a b : re)
| Opt (a : re)               (* (?: a )?, greedy *)
| Grp (n : nat) (a : re).    (* capture group number n *)

(** The match array: index 0 the whole match, index n group n; [None] is
    [undefined]. *)
Definition captures := list (option str).

Fixpoint set (n : nat) (v : option str) (c : captures) : captures :=
  match n, c with
  | O, _ :: r => v :: r
  | S n', a :: r => a :: set n' v r
  | _, [] => []
  end.

Section Run.
Variable R : Type.

Fixpoint star (p : N -> bool) (i : nat) (s : str)
         (k : nat -> str -> option R) : option R :=
  match s with
  | c :: s' =>
      if p c then
        match star p (S i) s' k with
        | Some r => Some r
        | None => k i s
        end
      else k i s
  | [] => k i s
  end.

(** [run r i s c k]: match [r] at index [i], where [s] is the input from
    [i] on, then continue with [k]. *)
Fixpoint run (r : re) (i : nat) (s : str) (c : captures)
         (k : nat -> str -> captures -> option R) : option R :=
  match r with
  | Bol => if Nat.eqb i 0 then k i s c else None
  | Eol => match s with [] => k i s c | _ :: _ => None end
  | Cls p =>
      match s with
      | a :: s' => if p a then k (S i) s' c else None
      | [] => None
      end
  | Star p => star p i s (fun i' s' => k i' s' c)
  | Plus p =>
      match s with
      | a :: s' =>
          if p a then star p (S i) s' (fun i' s' => k i' s' c) else None
      | [] => None
      end
  | Seq a b => run a i s c (fun i' s' c' => run b i' s' c' k)
  | Opt a =>
      match run a i s c k with
      | Some r => Some r
      | None => k i s c
      end
  | Grp n a =>
      run a i s c
          (fun i' s' c' => k i' s' (set n (Some (firstn (i' - i) s)) c'))
  end.

End Run.

Fixpoint groups (r : re) : nat :=
  match r with
  | Seq a b => groups a + groups b
  | Opt a => groups a
  | Grp _ a => S (groups a)
  | _ => O
  end.

(** One attempt at start index [i]: the whole pattern as group 0, on an
    array of undefined entries. *)
Definition attempt (r : re) (i : nat) (s : str) : option captures :=
  run captures (Grp 0 r) i s (repeat None (S (groups r)))
      (fun _ _ c => Some c).

(** Try the pattern at start index [i], then at the later ones. *)
Fixpoint search (r : re) (i : nat) (s : str) : option captures :=
  match attempt r i s with
  | Some c => Some c
  | None =>
      match s with
      | [] => None
      | _ :: s' => search r (S i) s'
      end
  end.

(** [s.match(r)] for a pattern without the global flag. *)
Definition exec (r : re) (s : str) : option captures := search r 0 s.

(** Character classes. *)
Definition chr (a : string) (c : N) : bool :=
  match lit a with
  | [x] => c =? x
  | _ => false
  end.

Definition digit (c : N) : bool := (48 <=? c) && (c <=? 57).

Definition word (c : N) : bool :=
  ((97 <=? c) && (c <=? 122)) || ((65 <=? c) && (c <=? 90)) || digit c
  || (c =? 95).

Definition wordOrDot (c : N) : bool := word c || (c =? 46).

Definition space (c : N) : bool := isWhiteSpace c.

End Regex.

Import Regex.

Declare Scope re_scope.
Delimit Scope re_scope with re.
Bind Scope re_scope with re.
Notation "a ;; b" := (Seq a b) (at level 61, right associativity) : re_scope.

(** [/^(\w+):\s*(\w+)(?:\s+([\w.]+))?(?:\s+\((\d+),\s*(\d+)\))?$/] *)
Definition componentRe : re :=
  (Bol ;; Grp 1 (Plus word) ;; Cls (chr ":") ;; Star space ;;
   Grp 2 (Plus word) ;;
   Opt (Plus space ;; Grp 3 (Plus wordOrDot)) ;;
   Opt (Plus space ;; Cls (chr "(") ;; Grp 4 (Plus digit) ;; Cls (chr ",") ;;
        Star space ;; Grp 5 (Plus digit) ;; Cls (chr ")")) ;;
   Eol)%re.

(** [/^(\w+)\s*->\s*(\w+)$/] *)
Definition connectionRe : re :=
  (Bol ;; Grp 1 (Plus word) ;; Star space ;; Cls (chr "-") ;; Cls (chr ">") ;;
   Star space ;; Grp 2 (Plus word) ;; Eol)%re.

(** ** Numbers and values *)

Module JsNumber.

(** The double nearest to an integer (ties to even, overflow to infinity). *)
Definition ofZ (n : Z) : float :=
  match n with
  | Zneg p => PrimFloat.opp (SF2Prim (binary_normalize prec emax (Zpos p) 0 false))
  | _ => SF2Prim (binary_normalize prec emax n 0 false)
  end.

(** ToBoolean on a number: [0], [-0] and [NaN] are falsy. *)
Definition truthy (f : float) : bool :=
  negb (PrimFloat.is_nan f || PrimFloat.is_zero f).

(** [Math.min] and [Math.max] on two numbers. *)
Definition Math_min (a b : float) : float :=
  if PrimFloat.is_nan a || PrimFloat.is_nan b then PrimFloat.nan
  else if PrimFloat.ltb a b then a
  else if PrimFloat.ltb b a then b
  else if PrimFloat.is_zero a && PrimFloat.get_sign a then a else b.

Definition Math_max (a b : float) : float :=
  if PrimFloat.is_nan a || PrimFloat.is_nan b then PrimFloat.nan
  else if PrimFloat.ltb a b then b
  else if PrimFloat.ltb b a then a
  else if PrimFloat.is_zero a && PrimFloat.get_sign a then b else a.

Definition digitValue (c : N) : option Z :=
  if (48 <=? c) && (c <=? 57) then Some (Z.of_N (c - 48))
  else if (97 <=? c) && (c <=? 122) then Some (Z.of_N (c - 87))
  else if (65 <=? c) && (c <=? 90) then Some (Z.of_N (c - 55))
  else None.

(** The value of the longest prefix of digits of the radix; [None] when there
    is no digit. *)
Fixpoint readDigits (radix : Z) (s : str) (acc : option Z) : option Z :=
  match s with
  | c :: r =>
      match digitValue c with
      | Some d =>
          if (d <? radix)%Z then
            readDigits radix r
                       (Some (match acc with Some a => a * radix + d | None => d end)%Z)
          else acc
      | None => acc
      end
  | [] => acc
  end.

Definition magnitude (s : str) : option Z :=
  match s with
  | 48 :: 120 :: r | 48 :: 88 :: r => readDigits 16 r None
  | _ => readDigits 10 s None
  end.

(** [parseInt(x)] with no radix argument.  [None] is [undefined], whose
    string form has no digit prefix.  (Past twenty significant digits the
    language lets an implementation approximate; the correctly rounded value
    is taken here.) *)
Definition parseInt (x : option str) : float :=
  match x with
  | None => PrimFloat.nan
  | Some s =>
      match trimStart s with
      | 45 :: r =>
          match magnitude r with
          | Some n => PrimFloat.opp (ofZ n)
          | None => PrimFloat.nan
          end
      | 43 :: r =>
          match magnitude r with Some n => ofZ n | None => PrimFloat.nan end
      | r =>
          match magnitude r with Some n => ofZ n | None => PrimFloat.nan end
      end
  end.

End JsNumber.

Import JsNumber.

(** The values a coordinate field or an attribute can hold: a number, the
    object [{x, y}] that [autoPosition] returns, or a string. *)
Inductive jsval : Type :=
| VNum (f : float)
| VPos (px py : float)
| VStr (s : str).

(** [a || b] with a number on the left. *)
Definition jsOr (a : float) (b : jsval) : jsval :=
  if truthy a then VNum a else b.

(** The decimal form of an integer literal or line number. *)
Definition showInt (n : Z) : str :=
  lit (DecimalString.NilZero.string_of_int (Z.to_int n)).

(** [v + n] for an integer literal [n]: addition of numbers, concatenation
    once the left operand is an object (which prints as [[object Object]])
    or a string. *)
Definition jsAdd (v : jsval) (n : Z) : jsval :=
  match v with
  | VNum f => VNum (f + ofZ n)%float
  | VPos _ _ => VStr (lit "[object Object]" ++ showInt n)
  | VStr s => VStr (s ++ showInt n)
  end.

(** ** The engine: data model *)

Record component : Type := mkComponent
  { name : str; type : str; value : str; x : jsval; y : jsval }.

Record connection : Type := mkConnection { from : str; to : str }.

(** The fields of a [CircuitEngine] instance.  ([svgCanvas] is set to [null]
    by the constructor and never read or written again.) *)
Record CircuitEngine : Type := mkEngine
  { components : list component;
    connections : list connection;
    zoom : float }.

(** [new CircuitEngine()] *)
Definition newEngine : CircuitEngine :=
  {| components := []; connections := []; zoom := 1%float |}.

(** How a call ends: with a value, or with a thrown [Error] and its message. *)
Inductive completion (A : Type) : Type :=
| Return (a : A)
| Throw (message : string).

Arguments Return {A} a.
Arguments Throw {A} message.

Definition withComponents (e : CircuitEngine) (l : list component) :=
  {| components := l; connections := connections e; zoom := zoom e |}.

Definition withConnections (e : CircuitEngine) (l : list connection) :=
  {| components := components e; connections := l; zoom := zoom e |}.

(** ** The parser *)

(** [autoPosition()]: the grid slot of the running component count.  The
    count is an array length, so the modulus, the quotient and the sums are
    exact on doubles and are computed on integers. *)
Definition autoPosition (e : CircuitEngine) : jsval :=
  let gridSize := 100%Z in
  let cols := 7%Z in
  let index := Z.of_nat (length (components e)) in
  VPos (ofZ (100 + (index mod cols) * gridSize))
       (ofZ (100 + (index / cols) * gridSize)).

(** [parseLine(line)].  The match arrays are taken apart by shape; lemmas
    [componentMatch_shape] and [connectionMatch_shape] show that a match of
    either pattern always has the shape listed first. *)
Definition parseLine (e : CircuitEngine) (line : str) : CircuitEngine :=
  let componentMatch := exec componentRe line in
  match componentMatch with
  | Some [_; Some name; Some type; value; x; y] =>
      withComponents e
        (components e ++
         [ {| name := name;
              type := toLowerCase type;
              value := match value with Some v => v | None => [] end;
              x := jsOr (parseInt x) (autoPosition e);
              y := jsOr (parseInt y) (autoPosition e) |} ])
  | Some _ => e
  | None =>
      let connectionMatch := exec connectionRe line in
      match connectionMatch with
      | Some [_; Some from; Some to] =>
          withConnections e (connections e ++ [ {| from := from; to := to |} ])
      | Some _ => e
      | None =>
          (* Auto-connection (implicit series connection) *)
          if (0 <? length (components e))%nat && negb (includes line (lit "->"))
          then
            match nth_error (components e) (length (components e) - 1) with
            | Some lastComponent =>
                match componentMatch with
                | Some _ =>
                    match nth_error (components e) (length (components e)) with
                    | Some currentComponent =>
                        withConnections e
                          (connections e ++
                           [ {| from := name lastComponent;
                                to := name currentComponent |} ])
                    | None => e
                    end
                | None => e
                end
            | None => e
            end
          else e
      end
  end.

(** The lines [parseCircuitCode] hands to [parseLine]: split at line feeds,
    keep those whose trimmed form is neither empty nor a comment, trimmed. *)
Definition significant (line : str) : bool :=
  match trim line with
  | [] => false
  | _ :: _ => negb (startsWith (trim line) (lit "//"))
  end.

Definition codeLines (code : str) : list str :=
  map trim (filter significant (split LF code)).

Definition parsed : Type := (list component * list connection)%type.

(** [parseCircuitCode(code)]: the engine after the call and how it ended. *)
Definition parseCircuitCode (e : CircuitEngine) (code : str)
  : CircuitEngine * completion parsed :=
  let e0 := withConnections (withComponents e []) [] in
  match trim code with
  | [] => (e0, Throw "Please enter circuit code")
  | _ :: _ =>
      let e1 := fold_left parseLine (codeLines code) e0 in
      if Nat.eqb (length (components e1)) 0
      then (e1, Throw "No valid components found in code")
      else (e1, Return (components e1, connections e1))
  end.

(** A parse on a fresh engine. *)
Definition parse (code : str) : completion parsed :=
  snd (parseCircuitCode newEngine code).

(** The documented three-line example. *)
Definition example1 : str :=
  text ["R1: resistor 330 (250,100)"; "LED1: led red"; "R1 -> LED1"].

(** ** The renderer *)

(** The symbol routines of the engine, one per [draw...] method. *)
Inductive symbol : Type :=
| Resistor | Capacitor | Inductor | LED | Battery | Ground | Switch
| Transistor | GenericComponent
| ArduinoUno | ArduinoNano | ArduinoMega | ESP32 | ESP32CAM | ESP8266
| DHT22 | PIR | VirtualWall | VirtualObstacle | VirtualTarget | VirtualLight
| Ultrasonic | DHT11 | LDR | Servo | DCMotor | Relay | Buzzer | LCD
| Potentiometer | PushButton | RGBLED.

(** A text label of a symbol: content and anchor. *)
Record label : Type := mkLabel { content : str; lx : Z; ly : Z }.

(** The children of the diagram's [svg] element.  A symbol's group carries
    its routine, the two arguments of its [translate(...)] transform and its
    labels; the fixed shapes of a routine are determined by the routine. *)
Inductive element : Type :=
| Defs                                 (* the grid pattern *)
| GridRect                             (* the rectangle filled with it *)
| Line (x1 y1 x2 y2 : jsval)           (* class circuit-wire *)
| Circle (cx cy : jsval)               (* r = 3, class circuit-terminal *)
| Group (s : symbol) (tx ty : jsval) (labels : list label).

Definition svg : Type := list element.

(** [addGrid(svg)] *)
Definition addGrid (s : svg) : svg := s ++ [Defs] ++ [GridRect].

(** [addConnectionDot(svg, x, y)] *)
Definition addConnectionDot (s : svg) (cx cy : jsval) : svg :=
  s ++ [Circle cx cy].

(** [components.find(c => c.name === n)] *)
Definition findByName (cs : list component) (n : str) : option component :=
  find (fun c => eqb (name c) n) cs.

(** [drawConnection(svg, connection, components)] *)
Definition drawConnection (s : svg) (conn : connection)
           (cs : list component) : svg :=
  match findByName cs (from conn), findByName cs (to conn) with
  | Some fromComp, Some toComp =>
      let s1 := s ++ [Line (jsAdd (x fromComp) 40) (jsAdd (y fromComp) 20)
                           (x toComp) (jsAdd (y toComp) 20)] in
      let s2 := addConnectionDot s1 (jsAdd (x fromComp) 40)
                                 (jsAdd (y fromComp) 20) in
      addConnectionDot s2 (x toComp) (jsAdd (y toComp) 20)
  | _, _ => s
  end.

(** [addLabel(group, name, value, x, y)]: the labels it appends. *)
Definition addLabel (nm val : str) (px py : Z) : list label :=
  {| content := nm; lx := px; ly := py |}
  :: match val with
     | [] => []
     | _ :: _ => [ {| content := val; lx := px; ly := (py + 15)%Z |} ]
     end.

(** What a routine passes to [addLabel] as the value. *)
Inductive labelValue : Type :=
| OwnValue                  (* component.value *)
| NoValue                   (* '' *)
| FixedValue (v : string).

Definition labelArgs (sym : symbol) : labelValue * Z * Z :=
  match sym with
  | Resistor | Capacitor | Inductor | LED | Battery | Transistor
  | GenericComponent | LDR => (OwnValue, 40, 50)
  | Ground | Switch => (NoValue, 40, 50)
  | ArduinoUno => (NoValue, 60, 100)
  | ArduinoNano => (NoValue, 40, 70)
  | ArduinoMega => (NoValue, 80, 120)
  | ESP32 | ESP32CAM => (NoValue, 50, 80)
  | ESP8266 => (NoValue, 45, 75)
  | DHT22 => (NoValue, 25, 45)
  | PIR | VirtualWall | VirtualObstacle | VirtualTarget | VirtualLight =>
      (NoValue, 30, 55)
  | Ultrasonic => (NoValue, 25, 50)
  | DHT11 => (NoValue, 20, 40)
  | Servo => (OwnValue, 30, 60)
  | DCMotor => (OwnValue, 40, 55)
  | Relay => (OwnValue, 25, 50)
  | Buzzer | RGBLED => (NoValue, 40, 55)
  | LCD => (FixedValue "16x2", 40, 55)
  | Potentiometer => (OwnValue, 40, 65)
  | PushButton => (NoValue, 30, 65)
  end%Z.

(** A [draw...] routine: one group, translated to the component's stored
    coordinates, labelled, appended to the scene.  The generic box also
    shows the type in upper case. *)
Definition drawSymbol (sym : symbol) (s : svg) (c : component) : svg :=
  let '(v, px, py) := labelArgs sym in
  let val := match v with
             | OwnValue => value c
             | NoValue => []
             | FixedValue f => lit f
             end in
  let typeText :=
    match sym with
    | GenericComponent =>
        [ {| content := toUpperCase (type c); lx := 40; ly := 24 |} ]
    | _ => []
    end in
  s ++ [Group sym (x c) (y c) (typeText ++ addLabel (name c) val px py)].

(** What a [case] of [drawComponent] calls: a method of the class, or a name
    the class does not define (calling it throws a [TypeError]). *)
Inductive method : Type :=
| Defined (sym : symbol)
| Undefined (m : string).

(** The [switch (component.type)] of [drawComponent], case labels in order. *)
Definition cases : list (string * method) :=
  [ ("resistor", Defined Resistor); ("capacitor", Defined Capacitor);
    ("inductor", Defined Inductor); ("led", Defined LED);
    ("battery", Defined Battery); ("ground", Defined Ground);
    ("switch", Defined Switch); ("npn", Defined Transistor);
    ("transistor", Defined Transistor);
    ("arduino_uno", Defined ArduinoUno); ("arduino_nano", Defined ArduinoNano);
    ("arduino_mega", Defined ArduinoMega); ("esp32", Defined ESP32);
    ("esp32_cam", Defined ESP32CAM); ("esp8266", Defined ESP8266);
    ("ultrasonic", Defined Ultrasonic); ("dht11", Defined DHT11);
    ("dht22", Defined DHT22); ("pir", Defined PIR);
    ("ir_sensor", Undefined "drawIRSensor");
    ("accelerometer", Undefined "drawAccelerometer");
    ("gyro", Undefined "drawGyro"); ("ldr", Defined LDR);
    ("servo", Defined Servo); ("dc_motor", Defined DCMotor);
    ("stepper", Undefined "drawStepper"); ("relay", Defined Relay);
    ("buzzer", Defined Buzzer); ("rgb_led", Defined RGBLED);
    ("lcd", Defined LCD); ("oled", Undefined "drawOLED");
    ("7segment", Undefined "draw7Segment");
    ("potentiometer", Defined Potentiometer);
    ("pushbutton", Defined PushButton);
    ("virtual_wall", Defined VirtualWall);
    ("virtual_obstacle", Defined VirtualObstacle);
    ("virtual_target", Defined VirtualTarget);
    ("virtual_light", Defined VirtualLight) ].

Definition dispatch (t : str) : method :=
  match find (fun c => eqb t (lit (fst c))) cases with
  | Some (_, m) => m
  | None => Defined GenericComponent
  end.

(** [drawComponent(svg, component)]: the scene after the call and how the
    call ended. *)
Definition drawComponent (s : svg) (c : component) : svg * completion unit :=
  match dispatch (type c) with
  | Defined sym => (drawSymbol sym s c, Return tt)
  | Undefined m => (s, Throw ("this." ++ m ++ " is not a function"))
  end.

(** [components.forEach(comp => this.drawComponent(svg, comp))]: a throw ends
    the loop. *)
Fixpoint drawComponents (s : svg) (cs : list component)
  : svg * completion unit :=
  match cs with
  | [] => (s, Return tt)
  | c :: r =>
      match drawComponent s c with
      | (s', Return _) => drawComponents s' r
      | (s', Throw m) => (s', Throw m)
      end
  end.

(** [generateCircuit(components, connections)]: the scene is emptied, then
    the grid, the connections and the components are drawn, in this order. *)
Definition generateCircuit (cs : list component) (conns : list connection)
  : svg * completion unit :=
  let s0 := addGrid [] in
  let s1 := fold_left (fun s conn => drawConnection s conn cs) conns s0 in
  drawComponents s1 cs.

(** ** Zoom *)

(** What the engine touches of the page: the children of the diagram's
    [svg] element and the argument of its [scale(...)] style transform. *)
Record page : Type := mkPage { scene : svg; scale : option float }.

Definition withZoom (e : CircuitEngine) (z : float) : CircuitEngine :=
  {| components := components e; connections := connections e; zoom := z |}.

(** [applyZoom()] *)
Definition applyZoom (e : CircuitEngine) (p : page) : page :=
  {| scene := scene p; scale := Some (zoom e) |}.

(** [zoomIn()] *)
#[warnings="-inexact-float"]
Definition zoomIn (e : CircuitEngine) (p : page) : CircuitEngine * page :=
  let e' := withZoom e (Math_min (zoom e + 0.1)%float 3%float) in
  (e', applyZoom e' p).

(** [zoomOut()] *)
#[warnings="-inexact-float"]
Definition zoomOut (e : CircuitEngine) (p : page) : CircuitEngine * page :=
  let e' := withZoom e (Math_max (zoom e - 0.1)%float 0.5%float) in
  (e', applyZoom e' p).

Inductive zoomCall : Type := In_ | Out_.

Definition zoomStep (st : CircuitEngine * page) (c : zoomCall)
  : CircuitEngine * page :=
  match c with
  | In_ => zoomIn (fst st) (snd st)
  | Out_ => zoomOut (fst st) (snd st)
  end.

(** A finite sequence of zoom calls. *)
Definition zoomCalls (st : CircuitEngine * page) (cs : list zoomCall)
  : CircuitEngine * page :=
  fold_left zoomStep cs st.

(** The exact value of a finite double, as a rational. *)
Definition toQ (f : float) : Q :=
  match Prim2SF f with
  | S754_finite s m e =>
      ((if s then -1 else 1) * (Zpos m # 1) * Qpower (2 # 1) e)%Q
  | _ => 0%Q
  end.

Definition finite (f : float) : bool :=
  match Prim2SF f with
  | S754_finite _ _ _ | S754_zero _ => true
  | _ => false
  end.

(** ** PNG export *)

(** What the user can observe of an export. *)
Inductive effect : Type :=
| Download (fileName : string)
| Message (text : string) (severity : string).

(** What the browser does with the image source once it is set. *)
Inductive imageEvent : Type := Load | Error.

(** An [Image] object: the handlers set on it, as the effects they have
    when they run; [None] is a handler that was never set. *)
Record image : Type := mkImage
  { onload : option (list effect); onerror : option (list effect) }.

(** The browser delivers the event to the image. *)
Definition fire (img : image) (ev : imageEvent) : list effect :=
  match ev with
  | Load => match onload img with Some h => h | None => [] end
  | Error => match onerror img with Some h => h | None => [] end
  end.

(** [btoa] accepts code units up to 255 only. *)
Definition btoaAccepts (s : str) : bool := forallb (fun c => c <=? 255) s.

(** [CircuitEngine.exportPNG()], given the serialised markup of the scene:
    how the call ends and the image it leaves waiting for the browser.  Only
    [onload] is set; its handler paints the 800 x 600 canvas and downloads
    it. *)
Definition engineExportPNG (svgData : str) : completion unit * option image :=
  let img := {| onload := Some [Download "circuit-diagram.png"];
                onerror := None |} in
  if btoaAccepts svgData then (Return tt, Some img)
  else (Throw "Failed to execute 'btoa'", None).

(** [exportPNG()] of the page script, followed by the browser's delivery of
    the image event: everything the user observes, in order. *)
Definition exportPNG (svgData : str) (ev : imageEvent) : list effect :=
  match engineExportPNG svgData with
  | (Return _, img) =>
      Message "Circuit exported as PNG successfully" "success"
      :: match img with Some i => fire i ev | None => [] end
  | (Throw m, _) => [Message ("Error exporting PNG: " ++ m) "error"]
  end.

(** ** The advisory validator (page script) *)

(** A diagnostic, by kind; [message] is the string the validator pushes. *)
Inductive diagnostic : Type :=
| DuplicateName (line : Z) (n : str)
| UnknownType (line : Z) (t : str)
| InvalidSyntax (line : Z)
| NotFound (line : Z) (n : str).

Definition lineOf (d : diagnostic) : Z :=
  match d with
  | DuplicateName l _ | UnknownType l _ | InvalidSyntax l | NotFound l _ => l
  end.

Definition message (d : diagnostic) : str :=
  lit "Line " ++ showInt (lineOf d) ++
  match d with
  | DuplicateName _ n => lit ": Duplicate component name '" ++ n ++ lit "'"
  | UnknownType _ t => lit ": Unknown component type '" ++ t ++ lit "'"
  | InvalidSyntax _ => lit ": Invalid syntax"
  | NotFound _ n => lit ": Component '" ++ n ++ lit "' not found"
  end.

Definition validTypes : list string :=
  [ "resistor"; "capacitor"; "inductor"; "led"; "battery"; "ground";
    "switch"; "npn"; "transistor";
    "arduino_uno"; "arduino_nano"; "arduino_mega"; "esp32"; "esp32_cam";
    "esp8266";
    "ultrasonic"; "dht11"; "dht22"; "pir"; "ir_sensor"; "accelerometer";
    "gyro"; "ldr";
    "servo"; "dc_motor"; "stepper"; "relay"; "buzzer"; "rgb_led";
    "lcd"; "oled"; "7segment"; "potentiometer"; "pushbutton";
    "virtual_wall"; "virtual_obstacle"; "virtual_target"; "virtual_light" ].

(** [validTypes.includes(t)] *)
Definition isValidType (t : str) : bool :=
  existsb (fun v => eqb (lit v) t) validTypes.

(** A [Set] of strings: [has] and [add]. *)
Definition has (s : list str) (n : str) : bool := existsb (eqb n) s.

Definition add (s : list str) (n : str) : list str :=
  if has s n then s else s ++ [n].

(** The locals of [validateCircuitCode] that the line callback updates. *)
Record scan : Type := mkScan
  { errors : list diagnostic;
    componentNames : list str;
    pending : list (connection * Z) }.

(** The callback of [lines.forEach((line, index) => ...)]. *)
Definition scanLine (st : scan) (index : nat) (line : str) : scan :=
  let trimmed := trim line in
  let lineNo := (Z.of_nat index + 1)%Z in
  match trimmed with
  | [] => st
  | _ :: _ =>
      if startsWith trimmed (lit "//") then st
      else
        match exec componentRe trimmed with
        | Some [_; Some name; Some type; value; x; y] =>
            let errors1 :=
              if has (componentNames st) name
              then errors st ++ [DuplicateName lineNo name]
              else errors st in
            let errors2 :=
              if negb (isValidType (toLowerCase type))
              then errors1 ++ [UnknownType lineNo type]
              else errors1 in
            {| errors := errors2;
               componentNames := add (componentNames st) name;
               pending := pending st |}
        | Some _ => st
        | None =>
            match exec connectionRe trimmed with
            | Some [_; Some from; Some to] =>
                {| errors := errors st;
                   componentNames := componentNames st;
                   pending := pending st
                              ++ [({| from := from; to := to |}, lineNo)] |}
            | Some _ => st
            | None =>
                {| errors := errors st ++ [InvalidSyntax lineNo];
                   componentNames := componentNames st;
                   pending := pending st |}
            end
        end
  end.

Fixpoint scanLines (st : scan) (index : nat) (lines : list str) : scan :=
  match lines with
  | [] => st
  | l :: r => scanLines (scanLine st index l) (S index) r
  end.

(** The callback of [connections.forEach(conn => ...)]. *)
Definition checkEndpoints (names : list str) (c : connection * Z)
  : list diagnostic :=
  (if has names (from (fst c)) then [] else [NotFound (snd c) (from (fst c))])
  ++ (if has names (to (fst c)) then [] else [NotFound (snd c) (to (fst c))]).

(** The diagnostics of [validateCircuitCode(code)], by kind. *)
Definition diagnose (code : str) : list diagnostic :=
  let st := scanLines {| errors := []; componentNames := []; pending := [] |}
                      0 (split LF code) in
  errors st ++ flat_map (checkEndpoints (componentNames st)) (pending st).

(** [validateCircuitCode(code)]: the array of messages it returns. *)
Definition validateCircuitCode (code : str) : list str :=
  map message (diagnose code).

(** ** Definitions used in the statements *)

(** Entry [n] of a match array is defined. *)
Definition isSet (c : captures) (n : nat) : Prop :=
  exists v, nth_error c n = Some (Some v).

(** The groups a match of the pattern certainly sets. *)
Fixpoint must (r : re) : list nat :=
  match r with
  | Seq a b => must a ++ must b
  | Grp n a => n :: must a
  | _ => []
  end.

(** The strings a pattern matches, declaratively: [lang r i pre rest] says
    that [r] matches [pre] at index [i] when [rest] follows. *)
Fixpoint lang (r : re) (i : nat) (pre rest : str) : Prop :=
  match r with
  | Bol => pre = [] /\ i = 0%nat
  | Eol => pre = [] /\ rest = []
  | Cls p => exists a, pre = [a] /\ p a = true
  | Star p => forallb p pre = true
  | Plus p => pre <> [] /\ forallb p pre = true
  | Seq a b =>
      exists p1 p2,
        pre = p1 ++ p2 /\ lang a i p1 (p2 ++ rest) /\
        lang b (i + length p1) p2 rest
  | Opt a => pre = [] \/ lang a i pre rest
  | Grp _ a => lang a i pre rest
  end.

(** A line the component branch of [parseLine] takes. *)
Definition isComponentLine (line : str) : bool :=
  match exec componentRe line with Some _ => true | None => false end.

(** A line that matches the connection pattern, with the names of [c] as
    its two groups. *)
Definition connectionLine (line : str) (c : connection) : Prop :=
  exists w, exec connectionRe line = Some [Some w; Some (from c); Some (to c)].

(** The engine after parsing each text of a history in turn (a parse that
    throws leaves the engine as the throw found it). *)
Definition afterParses (e : CircuitEngine) (history : list str)
  : CircuitEngine :=
  fold_left (fun e' c => fst (parseCircuitCode e' c)) history e.

(** What one connection adds to the scene. *)
Definition wireOf (cs : list component) (conn : connection) : svg :=
  match findByName cs (from conn), findByName cs (to conn) with
  | Some a, Some b =>
      [ Line (jsAdd (x a) 40) (jsAdd (y a) 20) (x b) (jsAdd (y b) 20);
        Circle (jsAdd (x a) 40) (jsAdd (y a) 20);
        Circle (x b) (jsAdd (y b) 20) ]
  | _, _ => []
  end.

(** The group a symbol routine appends for a component. *)
Definition groupOf (sym : symbol) (c : component) : element :=
  match drawSymbol sym [] c with
  | [g] => g
  | _ => Defs
  end.

(** The component has a routine: its [case] calls a method of the class. *)
Definition drawable (c : component) : Prop :=
  exists sym, dispatch (type c) = Defined sym.

Definition drawnAs (c : component) : element :=
  match dispatch (type c) with
  | Defined sym => groupOf sym c
  | Undefined _ => Defs
  end.

(** The names the component lines of a text declare, in order. *)
Definition declaredName (line : str) : list str :=
  match exec componentRe line with
  | Some (_ :: Some n :: _) => [n]
  | _ => []
  end.

(** A text with one connection between declared components and one to a
    name that is not declared, and what the parser returns for it. *)
Definition example_dangling : str :=
  text ["R1: resistor 330 (250,100)"; "LED1: led red (400,100)";
        "R1 -> LED1"; "R1 -> X9"].

Definition example_dangling_components : list component :=
  [ {| name := lit "R1"; type := lit "resistor"; value := lit "330";
       x := VNum 250; y := VNum 100 |};
    {| name := lit "LED1"; type := lit "led"; value := lit "red";
       x := VNum 400; y := VNum 100 |} ].

Definition example_dangling_connections : list connection :=
  [ {| from := lit "R1"; to := lit "LED1" |};
    {| from := lit "R1"; to := lit "X9" |} ].

(** A text that declares one name twice, with a type whose [case] calls a
    method the class lacks, and what the parser returns for it. *)
Definition example_duplicate : str := text ["D1: oled"; "D1: oled 128x64"].

Definition example_duplicate_components : list component :=
  [ {| name := lit "D1"; type := lit "oled"; value := [];
       x := VPos 100 100; y := VPos 100 100 |};
    {| name := lit "D1"; type := lit "oled"; value := lit "128x64";
       x := VPos 200 100; y := VPos 200 100 |} ].

(** The zoom factor after one call, as a function of the factor before. *)
Definition levelIn (z : float) : float :=
  zoom (fst (zoomIn (withZoom newEngine z) {| scene := []; scale := None |})).

Definition levelOut (z : float) : float :=
  zoom (fst (zoomOut (withZoom newEngine z) {| scene := []; scale := None |})).

Definition memF (z : float) (l : list float) : bool :=
  existsb (PrimFloat.Leibniz.eqb z) l.

Definition insertF (l : list float) (z : float) : list float :=
  if memF z l then l else l ++ [z].

(** The factors reachable from [frontier], added to [seen], breadth first. *)
Fixpoint explore (fuel : nat) (seen frontier : list float) : list float :=
  match fuel with
  | O => seen
  | S f =>
      let next := flat_map (fun z => [levelIn z; levelOut z]) frontier in
      let fresh :=
        fold_left (fun acc z => if memF z seen then acc else insertF acc z)
                  next [] in
      match fresh with
      | [] => seen
      | _ :: _ => explore f (seen ++ fresh) fresh
      end
  end.

(** Every zoom factor that calls of [zoomIn] and [zoomOut] can produce from
    the initial factor 1. *)
Definition zoomLevels : list float :=
  Eval vm_compute in explore 200 [1%float] [1%float].

(** What is checked of each reachable factor: it is a finite number within
    [0.5, 3]; a [zoomIn] does not lower it and raises it by at most
    0.1 + 10^-16; a [zoomOut] does not raise it and lowers it by at most
    0.1 + 10^-16. *)
Definition tolerance : Q := 1 # 10000000000000000.

Definition levelOk (z : float) : bool :=
  finite z && PrimFloat.leb 0.5 z && PrimFloat.leb z 3
  && Qle_bool (1 # 2) (toQ z) && Qle_bool (toQ z) 3
  && Qle_bool 0 (toQ (levelIn z) - toQ z)
  && Qle_bool (toQ (levelIn z) - toQ z) ((1 # 10) + tolerance)
  && Qle_bool 0 (toQ z - toQ (levelOut z))
  && Qle_bool (toQ z - toQ (levelOut z)) ((1 # 10) + tolerance).

(** The branch of the line callback a line takes. *)
Inductive lineKind : Type :=
| Skipped                            (* blank or comment *)
| ComponentDecl (n t : str)
| ConnectionDecl (f t : str)
| Malformed.

Definition classify (line : str) : lineKind :=
  match trim line with
  | [] => Skipped
  | _ :: _ =>
      if startsWith (trim line) (lit "//") then Skipped
      else
        match exec componentRe (trim line) with
        | Some [_; Some n; Some t; _; _; _] => ComponentDecl n t
        | Some _ => Skipped
        | None =>
            match exec connectionRe (trim line) with
            | Some [_; Some f; Some t] => ConnectionDecl f t
            | Some _ => Skipped
            | None => Malformed
            end
        end
  end.

(** The names the component lines among [lines] declare, in order. *)
Definition declaredNames (lines : list str) : list str :=
  flat_map (fun l => match classify l with
                     | ComponentDecl n _ => [n]
                     | _ => []
                     end) lines.

(** The diagnostics a line deserves, following the specification's four
    kinds: on a component line, a duplicate name when an earlier line
    declares the name and an unknown type when the type is outside the
    enumeration; on a connection line, a dangling endpoint for each of the
    two names that no line declares; on a line of neither grammar, invalid
    syntax. *)
Definition lineDiagnostics (earlier all : list str) (lineNo : Z)
           (k : lineKind) : list diagnostic :=
  match k with
  | Skipped => []
  | ComponentDecl n t =>
      (if has earlier n then [DuplicateName lineNo n] else [])
      ++ (if isValidType (toLowerCase t) then [] else [UnknownType lineNo t])
  | ConnectionDecl f t =>
      (if has all f then [] else [NotFound lineNo f])
      ++ (if has all t then [] else [NotFound lineNo t])
  | Malformed => [InvalidSyntax lineNo]
  end.

Definition onLine (n : Z) (d : diagnostic) : bool := (lineOf d =? n)%Z.

Definition lineErrors (names : list str) (lineNo : Z) (k : lineKind)
  : list diagnostic :=
  match k with
  | ComponentDecl n t =>
      (if has names n then [DuplicateName lineNo n] else [])
      ++ (if isValidType (toLowerCase t) then [] else [UnknownType lineNo t])
  | Malformed => [InvalidSyntax lineNo]
  | _ => []
  end.

Definition lineNames (names : list str) (k : lineKind) : list str :=
  match k with
  | ComponentDecl n _ => add names n
  | _ => names
  end.

Definition linePending (lineNo : Z) (k : lineKind) : list (connection * Z) :=
  match k with
  | ConnectionDecl f t => [({| from := f; to := t |}, lineNo)]
  | _ => []
  end.

(** The three locals after the scan, line by line. *)
Fixpoint errs (names : list str) (k : nat) (lines : list str)
  : list diagnostic :=
  match lines with
  | [] => []
  | l :: r =>
      lineErrors names (Z.of_nat k + 1) (classify l)
      ++ errs (lineNames names (classify l)) (S k) r
  end.

Fixpoint namesAfter (names : list str) (lines : list str) : list str :=
  match lines with
  | [] => names
  | l :: r => namesAfter (lineNames names (classify l)) r
  end.

Fixpoint pend (k : nat) (lines : list str) : list (connection * Z) :=
  match lines with
  | [] => []
  | l :: r => linePending (Z.of_nat k + 1) (classify l) ++ pend (S k) r
  end.

(** A text with a clean line and three offending ones. *)
Definition example_clean_and_dirty : str :=
  text ["R1: resistor 330"; "R1: widget"; "R1 -> LED1"; "???"].

(** ** Further definitions used in the statements *)

(** What the groups of a match hold: [groupsSat G r] says that whatever a
    group [n] of [r] can match satisfies [G n]; [capsSat G c] says that
    every defined entry [n] of the array [c] satisfies [G n]. *)
Fixpoint groupsSat (G : nat -> str -> Prop) (r : re) : Prop :=
  match r with
  | Seq a b => groupsSat G a /\ groupsSat G b
  | Opt a => groupsSat G a
  | Grp n a =>
      (forall i pre rest, lang a i pre rest -> G n pre) /\ groupsSat G a
  | _ => True
  end.

Definition capsSat (G : nat -> str -> Prop) (c : captures) : Prop :=
  forall n v, nth_error c n = Some (Some v) -> G n v.

(** A non-empty string of characters of a class. *)
Definition token (p : N -> bool) (s : str) : Prop :=
  s <> [] /\ forallb p s = true.

(** What the groups of the two patterns hold. *)
Definition componentGroups (n : nat) (s : str) : Prop :=
  match n with
  | 1%nat | 2%nat => token word s
  | 3%nat => token wordOrDot s
  | 4%nat | 5%nat => token digit s
  | _ => True
  end.

Definition connectionGroups (n : nat) (s : str) : Prop :=
  match n with
  | 1%nat | 2%nat => token word s
  | _ => True
  end.


(** The connection a line declares, if it matches the connection pattern. *)
Definition declaredConnection (line : str) : list connection :=
  match exec connectionRe line with
  | Some (_ :: Some f :: Some t :: _) => [ {| from := f; to := t |} ]
  | _ => []
  end.

(** The grid slot of index [k], as [autoPosition] computes it when the
    component list has [k] elements. *)
Definition slot (k : nat) : jsval :=
  VPos (ofZ (100 + (Z.of_nat k mod 7) * 100))
       (ofZ (100 + (Z.of_nat k / 7) * 100)).

(** A coordinate field of the record at index [k]: a truthy number, or the
    slot object of [k]. *)
Definition coordinateOk (k : nat) (v : jsval) : Prop :=
  (exists f, v = VNum f /\ truthy f = true) \/ v = slot k.

(** The shape of the tokens of a component record and of a connection
    record. *)
Definition wellFormedComponent (c : component) : Prop :=
  token word (name c) /\ token word (type c) /\
  toLowerCase (type c) = type c /\ forallb wordOrDot (value c) = true.

Definition wellFormedConnection (c : connection) : Prop :=
  token word (from c) /\ token word (to c).



(** The component list as a function of the significant lines alone: the
    record of each component line, built as [parseLine] builds it, with the
    grid slot of the number of component lines before it. *)
Fixpoint records (k : nat) (lines : list str) : list component :=
  match lines with
  | [] => []
  | l :: r =>
      match exec componentRe l with
      | Some [_; Some n; Some t; v; px; py] =>
          {| name := n;
             type := toLowerCase t;
             value := match v with Some s => s | None => [] end;
             x := jsOr (parseInt px) (slot k);
             y := jsOr (parseInt py) (slot k) |}
          :: records (S k) r
      | _ => records k r
      end
  end.

(** The method a component's [case] calls when the class lacks it. *)
Definition missingMethod (c : component) : option string :=
  match dispatch (type c) with
  | Defined _ => None
  | Undefined m => Some m
  end.

(** The components drawn before the first one whose method is missing, and
    that method. *)
Fixpoint drawnPrefix (cs : list component) : list component :=
  match cs with
  | [] => []
  | c :: r =>
      match missingMethod c with
      | None => c :: drawnPrefix r
      | Some _ => []
      end
  end.

Fixpoint firstMissing (cs : list component) : option string :=
  match cs with
  | [] => None
  | c :: r =>
      match missingMethod c with
      | None => firstMissing r
      | Some m => Some m
      end
  end.


(** ** Further code of the sources *)

(** The zoom factor along a sequence of calls. *)
Definition levelStep (z : float) (c : zoomCall) : float :=
  match c with
  | In_ => levelIn z
  | Out_ => levelOut z
  end.

(** [CircuitEngine.exportSVG()] followed by the page script's [exportSVG()]:
    the serialised markup is offered as a download, then the success
    message is shown.  Nothing in it can throw on a string. *)
Definition exportSVG (svgData : str) : list effect :=
  [Download "circuit-diagram.svg";
   Message "Circuit exported as SVG successfully" "success"].

(** The text of the WiFi label that [drawESP8266] puts into its group, as
    the source file holds it (code units F0, 178, 201C, B6). *)
Definition wifiGlyph : str := [240; 376; 8220; 182].

(** The serial monitor of [SimulationEngine]: the [serialOutput] array and
    the text of the [serial-content] element ([None] when the page has no
    such element). *)
Record serialMonitor : Type := mkSerial
  { serialOutput : list str; serialContent : option str }.

(** [addSerialMessage(message)], with the time stamp the clock gives. *)
Definition addSerialMessage (st : serialMonitor) (timestamp message : str)
  : serialMonitor :=
  match serialContent st with
  | None => st
  | Some _ =>
      let newMessage :=
        lit "[" ++ timestamp ++ lit "] " ++ message ++ [LF] in
      let pushed := serialOutput st ++ [newMessage] in
      let kept :=
        if (100 <? length pushed)%nat then tl pushed else pushed in
      {| serialOutput := kept; serialContent := Some (concat kept) |}
  end.

(** [clearSerialOutput()]: the array is emptied first; writing the text of
    a missing element throws. *)
Definition clearSerialOutput (st : serialMonitor)
  : serialMonitor * completion unit :=
  match serialContent st with
  | None => ({| serialOutput := []; serialContent := None |},
             Throw "Cannot set properties of null")
  | Some _ => ({| serialOutput := []; serialContent := Some [] |}, Return tt)
  end.

(** The last [n] elements of a list. *)
Definition lastn {A : Type} (n : nat) (l : list A) : list A :=
  skipn (length l - n) l.

(** The decimal form of a count. *)
Definition showNat (n : nat) : string :=
  NilZero.string_of_uint (Nat.to_uint n).
















(** A serial monitor that holds a hundred lines. *)
Definition fullMonitor : serialMonitor :=
  let held :=
    map (fun n => lit "[10:00:00] Distance: " ++ lit (showNat n) ++ [LF])
        (seq 0%nat 100%nat) in
  {| serialOutput := held; serialContent := Some (concat held) |}.

(** [analysis.types[t] = (analysis.types[t] || 0) + 1] on the properties of
    the [types] object, in property order.  (The keys are stored types of a
    text the validator accepted, none of them an array index, so property
    order is insertion order.) *)
Fixpoint bump (types : list (str * nat)) (t : str) : list (str * nat) :=
  match types with
  | [] => [(t, 1%nat)]
  | (k, n) :: r =>
      if eqb k t then (k, S n) :: r else (k, n) :: bump r t
  end.

(** [l.join(sep)] *)
Fixpoint join (sep : str) (l : list str) : str :=
  match l with
  | [] => []
  | [a] => a
  | a :: r => a ++ sep ++ join sep r
  end.

(** [JSON.stringify] of the [types] object; its keys need no escaping. *)
Definition stringifyTypes (types : list (str * nat)) : str :=
  lit "{"
  ++ join (lit ",")
          (map (fun kn => [34] ++ fst kn ++ [34] ++ lit ":"
                          ++ lit (showNat (snd kn))) types)
  ++ lit "}".

(** What [analyzeCircuit] returns: [false], or the analysis object. *)
Inductive analysisResult : Type :=
| NoAnalysis
| Analysis (nComponents nConnections : nat) (types : list (str * nat)).

(** The page script's [analyzeCircuit()] on the editor's text: the engine
    after the call, the message shown (text and severity), and the value
    returned or the error thrown. *)
Definition analyzeCircuit (e : CircuitEngine) (code : str)
  : CircuitEngine * list (str * string) * completion analysisResult :=
  let errors := validateCircuitCode code in
  match errors with
  | _ :: _ =>
      (e,
       [(lit "Circuit validation found issues:" ++ [LF] ++ join [LF] errors,
         "error")],
       Return NoAnalysis)
  | [] =>
      match parseCircuitCode e code with
      | (e1, Throw m) => (e1, [], Throw m)
      | (e1, Return (cs, conns)) =>
          let types := fold_left (fun ts c => bump ts (type c)) cs [] in
          (e1,
           [(lit "Circuit Analysis:" ++ [LF]
             ++ lit (showNat (length cs)) ++ lit " components, "
             ++ lit (showNat (length conns)) ++ lit " connections" ++ [LF]
             ++ lit "Components by type: " ++ stringifyTypes types,
             "success")],
           Return (Analysis (length cs) (length conns) types))
      end
  end.

(** The line [addSerialMessage] makes of a time stamp and a message, and a
    sequence of calls, each with its time stamp. *)
Definition serialLine (tm : str * str) : str :=
  lit "[" ++ fst tm ++ lit "] " ++ snd tm ++ [LF].

Definition addSerialMessages (st : serialMonitor) (msgs : list (str * str))
  : serialMonitor :=
  fold_left (fun s tm => addSerialMessage s (fst tm) (snd tm)) msgs st.

(** The sum of the counts of a [types] object, and its keys. *)
Definition totalCount (types : list (str * nat)) : nat :=
  list_sum (map snd types).

(** The count the [types] object holds for a key (0 when it has no such
    property). *)
Definition countOf (types : list (str * nat)) (k : str) : nat :=
  match find (fun kn => eqb (fst kn) k) types with
  | Some (_, n) => n
  | None => 0%nat
  end.

(** The [types] object that [analyzeCircuit] builds for a component list. *)
Definition typeCounts (cs : list component) : list (str * nat) :=
  fold_left (fun ts c => bump ts (type c)) cs [].

(** The [componentCodes] table of the page script's [insertComponent]: the
    line each library button inserts. *)
Definition componentCodes : list (string * string) :=
  [ ("resistor", "R1: resistor 1k"); ("capacitor", "C1: capacitor 100uF");
    ("inductor", "L1: inductor 10mH"); ("led", "LED1: led red");
    ("battery", "V1: battery 9V"); ("ground", "GND1: ground");
    ("switch", "SW1: switch"); ("transistor", "Q1: npn");
    ("arduino_uno", "ARDUINO1: arduino_uno");
    ("arduino_nano", "NANO1: arduino_nano");
    ("arduino_mega", "MEGA1: arduino_mega"); ("esp32", "ESP32_1: esp32");
    ("esp32_cam", "CAM1: esp32_cam"); ("esp8266", "ESP1: esp8266");
    ("ultrasonic", "HC1: ultrasonic HC-SR04"); ("dht11", "DHT1: dht11");
    ("dht22", "DHT2: dht22"); ("pir", "PIR1: pir");
    ("ir_sensor", "IR1: ir_sensor");
    ("accelerometer", "ACC1: accelerometer MPU6050");
    ("gyro", "GYRO1: gyro MPU6050"); ("ldr", "LDR1: ldr");
    ("servo", "SERVO1: servo SG90"); ("dc_motor", "M1: dc_motor");
    ("stepper", "STEP1: stepper 28BYJ48"); ("relay", "RELAY1: relay 5V");
    ("buzzer", "BUZZ1: buzzer"); ("rgb_led", "RGB1: rgb_led");
    ("lcd", "LCD1: lcd 16x2"); ("oled", "OLED1: oled 128x64");
    ("7segment", "SEG1: 7segment");
    ("potentiometer", "POT1: potentiometer 10k");
    ("pushbutton", "BTN1: pushbutton");
    ("virtual_wall", "WALL1: virtual_wall");
    ("virtual_obstacle", "OBJ1: virtual_obstacle");
    ("virtual_target", "TARGET1: virtual_target");
    ("virtual_light", "LIGHT1: virtual_light") ].

(** The carriage return character. *)
Definition CR : N := 13.


(** [componentCodes[componentType] || componentType] of [insertComponent],
    for a key that the table holds or that no object has (the library
    buttons pass table keys only); every entry is a non-empty string. *)
Definition codeOf (componentType : string) : str :=
  match find (fun kv => String.eqb (fst kv) componentType) componentCodes with
  | Some (_, code) => lit code
  | None => lit componentType
  end.

(** [insertComponent(componentType)]: the editor's text after
    [editor.replaceRange('\n' + code + '\n', cursor)], the cursor being an
    offset into the text. *)
Definition insertComponent (componentType : string) (doc : str)
  (cursor : nat) : str :=
  firstn cursor doc ++ (LF :: codeOf componentType ++ [LF])
  ++ skipn cursor doc.

(** The cursor is at the start or at the end of a line of the text. *)
Definition lineBoundary (doc : str) (cursor : nat) : bool :=
  Nat.eqb cursor 0 || Nat.leb (length doc) cursor
  || match nth_error doc (cursor - 1) with
     | Some c => c =? LF
     | None => false
     end
  || match nth_error doc cursor with
     | Some c => c =? LF
     | None => false
     end.


(** * Properties *)

(** ** The definitions on examples *)

Example componentRe_full :
  exec componentRe (lit "R1: resistor 330 (250,100)")
  = Some [Some (lit "R1: resistor 330 (250,100)"); Some (lit "R1");
          Some (lit "resistor"); Some (lit "330"); Some (lit "250");
          Some (lit "100")].
Proof. vm_compute. reflexivity. Qed.

Example componentRe_no_value :
  exec componentRe (lit "R1: resistor (250, 100)")
  = Some [Some (lit "R1: resistor (250, 100)"); Some (lit "R1");
          Some (lit "resistor"); None; Some (lit "250"); Some (lit "100")].
Proof. vm_compute. reflexivity. Qed.

Example connectionRe_arrow :
  exec connectionRe (lit "R1->LED1")
  = Some [Some (lit "R1->LED1"); Some (lit "R1"); Some (lit "LED1")].
Proof. vm_compute. reflexivity. Qed.

Example ofZ_250 : ofZ 250 = 250%float.
Proof. vm_compute. reflexivity. Qed.

Example parseInt_250 : parseInt (Some (lit "250")) = 250%float.
Proof. vm_compute. reflexivity. Qed.

Example parseInt_zero_falsy : truthy (parseInt (Some (lit "0"))) = false.
Proof. vm_compute. reflexivity. Qed.

Example parseInt_undefined_falsy : truthy (parseInt None) = false.
Proof. vm_compute. reflexivity. Qed.

Example validate_two_per_line :
  validateCircuitCode (lit "A -> B")
  = [ lit "Line 1: Component 'A' not found";
      lit "Line 1: Component 'B' not found" ].
Proof. vm_compute. reflexivity. Qed.

(** ** The match arrays *)

Module RegexFacts.

Lemma set_length (n : nat) (v : option str) (c : captures) :
  length (set n v c) = length c.
Proof.
  revert n; induction c as [|a c IH]; intros [|n]; simpl; auto.
Qed.

Lemma set_same (n : nat) (v : option str) (c : captures) :
  (n < length c)%nat -> nth_error (set n v c) n = Some v.
Proof.
  revert n; induction c as [|a c IH]; intros [|n] H; simpl in *;
    try lia; auto.
  apply IH; lia.
Qed.

Lemma set_other (n m : nat) (v : option str) (c : captures) :
  n <> m -> nth_error (set n v c) m = nth_error c m.
Proof.
  revert n m; induction c as [|a c IH]; intros [|n] [|m] H; simpl;
    try congruence; auto.
Qed.

Lemma isSet_set (n m : nat) (w : str) (c : captures) :
  isSet c m -> isSet (set n (Some w) c) m.
Proof.
  intros [v Hv]. destruct (Nat.eq_dec n m) as [->|Hne].
  - exists w. apply set_same. apply nth_error_Some. congruence.
  - exists v. rewrite set_other; assumption.
Qed.

Lemma star_inv (R : Type) (p : N -> bool) (s : str) :
  forall i (k : nat -> str -> option R) res,
    star R p i s k = Some res -> exists i' s', k i' s' = Some res.
Proof.
  induction s as [|a s IH]; intros i k res H; simpl in H.
  - eauto.
  - destruct (p a); [|eauto].
    destruct (star R p (S i) s k) eqn:E.
    + inversion H; subst. eapply IH; eassumption.
    + eauto.
Qed.

(** A successful run reaches its continuation with an array of the same
    length in which every group set before is still set and every group of
    [must r] is set. *)
Lemma run_inv (R : Type) (r : re) :
  forall i s c (k : nat -> str -> captures -> option R) res,
    run R r i s c k = Some res ->
    exists i' s' c',
      k i' s' c' = Some res /\ length c' = length c /\
      (forall n, isSet c n -> isSet c' n) /\
      (forall n, In n (must r) -> (n < length c)%nat -> isSet c' n).
Proof.
  induction r as [| |p|p|p|a IHa b IHb|a IHa|n a IHa];
    intros i s c k res H; simpl in H.
  - destruct (Nat.eqb i 0); [|discriminate].
    exists i, s, c; simpl; intuition.
  - destruct s; [|discriminate]. exists i, [], c; simpl; intuition.
  - destruct s as [|x s]; [discriminate|]. destruct (p x); [|discriminate].
    exists (S i), s, c; simpl; intuition.
  - apply star_inv in H. destruct H as (i' & s' & H).
    exists i', s', c; simpl; intuition.
  - destruct s as [|x s]; [discriminate|]. destruct (p x); [|discriminate].
    apply star_inv in H. destruct H as (i' & s' & H).
    exists i', s', c; simpl; intuition.
  - apply IHa in H. destruct H as (i1 & s1 & c1 & H & L1 & M1 & S1).
    apply IHb in H. destruct H as (i2 & s2 & c2 & H & L2 & M2 & S2).
    exists i2, s2, c2. repeat split; auto; try congruence.
    intros n Hin Hlt. simpl in Hin. apply in_app_or in Hin.
    destruct Hin as [Hin|Hin]; [apply M2, S1; auto | apply S2; auto; lia].
  - destruct (run R a i s c k) eqn:E.
    + inversion H; subst. apply IHa in E.
      destruct E as (i1 & s1 & c1 & E & L1 & M1 & _).
      exists i1, s1, c1. simpl; intuition.
    + exists i, s, c; simpl; intuition.
  - apply IHa in H. destruct H as (i1 & s1 & c1 & H & L1 & M1 & S1).
    eexists i1, s1, _. split; [exact H|]. rewrite set_length.
    repeat split; auto.
    + intros m Hm. apply isSet_set; auto.
    + intros m [<-|Hin] Hlt.
      * eexists. apply set_same. lia.
      * apply isSet_set; auto.
Qed.

Lemma attempt_inv (r : re) (i : nat) (s : str) (c : captures) :
  attempt r i s = Some c ->
  length c = S (groups r) /\
  forall n, In n (0%nat :: must r) -> (n <= groups r)%nat -> isSet c n.
Proof.
  unfold attempt. intros E. apply run_inv in E.
  destruct E as (i' & s' & c' & E & L & _ & M). inversion E; subst.
  rewrite repeat_length in L. split; [exact L|].
  intros n Hn Hle. apply M; [exact Hn|rewrite repeat_length; lia].
Qed.

Lemma search_eq (r : re) (i : nat) (s : str) :
  search r i s
  = match attempt r i s with
    | Some c => Some c
    | None => match s with [] => None | _ :: s' => search r (S i) s' end
    end.
Proof. destruct s; reflexivity. Qed.

Lemma search_inv (r : re) (s : str) :
  forall i c, search r i s = Some c ->
    length c = S (groups r) /\
    forall n, In n (0%nat :: must r) -> (n <= groups r)%nat -> isSet c n.
Proof.
  induction s as [|a s IH]; intros i c H; rewrite search_eq in H;
    destruct (attempt r i _) eqn:E.
  - inversion H; subst. eapply attempt_inv; eassumption.
  - discriminate.
  - inversion H; subst. eapply attempt_inv; eassumption.
  - eapply IH; eassumption.
Qed.

(** The matcher is sound for [lang]. *)
Lemma star_sound (R : Type) (p : N -> bool) (s : str) :
  forall i (k : nat -> str -> option R) res,
    star R p i s k = Some res ->
    exists pre s',
      s = pre ++ s' /\ forallb p pre = true /\
      k (i + length pre)%nat s' = Some res.
Proof.
  induction s as [|a s IH]; intros i k res H; simpl in H.
  - exists [], []. simpl. rewrite Nat.add_0_r. auto.
  - destruct (p a) eqn:Pa.
    + destruct (star R p (S i) s k) eqn:E.
      * inversion H; subst. apply IH in E.
        destruct E as (pre & s' & -> & Hp & Hk).
        exists (a :: pre), s'. simpl. rewrite Pa, Hp.
        replace (i + S (length pre))%nat with (S i + length pre)%nat by lia.
        auto.
      * exists [], (a :: s). simpl. rewrite Nat.add_0_r. auto.
    + exists [], (a :: s). simpl. rewrite Nat.add_0_r. auto.
Qed.

Lemma run_sound (R : Type) (r : re) :
  forall i s c (k : nat -> str -> captures -> option R) res,
    run R r i s c k = Some res ->
    exists pre s' c',
      s = pre ++ s' /\ lang r i pre s' /\
      k (i + length pre)%nat s' c' = Some res.
Proof.
  induction r as [| |p|p|p|a IHa b IHb|a IHa|n a IHa];
    intros i s c k res H; simpl in H.
  - destruct (Nat.eqb i 0) eqn:E; [|discriminate]. apply Nat.eqb_eq in E.
    exists [], s, c. simpl. rewrite Nat.add_0_r. auto.
  - destruct s; [|discriminate].
    exists [], [], c. simpl. rewrite Nat.add_0_r. auto.
  - destruct s as [|a s]; [discriminate|].
    destruct (p a) eqn:Pa; [|discriminate].
    exists [a], s, c. simpl. replace (i + 1)%nat with (S i) by lia. eauto.
  - apply star_sound in H. destruct H as (pre & s' & -> & Hp & Hk).
    exists pre, s', c. auto.
  - destruct s as [|a s]; [discriminate|].
    destruct (p a) eqn:Pa; [|discriminate].
    apply star_sound in H. destruct H as (pre & s' & -> & Hp & Hk).
    exists (a :: pre), s', c. simpl. rewrite Pa, Hp.
    replace (i + S (length pre))%nat with (S i + length pre)%nat by lia.
    repeat split; auto. discriminate.
  - apply IHa in H. destruct H as (p1 & s1 & c1 & -> & L1 & H).
    apply IHb in H. destruct H as (p2 & s2 & c2 & -> & L2 & H).
    exists (p1 ++ p2), s2, c2. rewrite <- app_assoc, length_app.
    rewrite Nat.add_assoc. repeat split; auto.
    simpl. exists p1, p2. auto.
  - destruct (run R a i s c k) eqn:E.
    + inversion H; subst. apply IHa in E.
      destruct E as (pre & s' & c' & -> & L & Hk).
      exists pre, s', c'. simpl. auto.
    + exists [], s, c. simpl. rewrite Nat.add_0_r. auto.
  - apply IHa in H. destruct H as (pre & s' & c' & -> & L & Hk).
    eexists pre, s', _. simpl. eauto.
Qed.

Lemma attempt_sound (r : re) (i : nat) (s : str) (m : captures) :
  attempt r i s = Some m -> exists pre s', s = pre ++ s' /\ lang r i pre s'.
Proof.
  unfold attempt. intros H. apply run_sound in H.
  destruct H as (pre & s' & c' & -> & L & _). simpl in L. eauto.
Qed.

Lemma search_sound (r : re) (s : str) :
  forall i m, search r i s = Some m ->
    exists skipped s',
      s = skipped ++ s' /\ attempt r (i + length skipped)%nat s' = Some m.
Proof.
  induction s as [|a s IH]; intros i m H; rewrite search_eq in H;
    destruct (attempt r i _) eqn:E.
  - inversion H; subst. exists [], []. simpl. rewrite Nat.add_0_r. auto.
  - discriminate.
  - inversion H; subst. exists [], (a :: s). simpl.
    rewrite Nat.add_0_r. auto.
  - apply IH in H. destruct H as (sk & s' & -> & H).
    exists (a :: sk), s'. simpl.
    replace (i + S (length sk))%nat with (S i + length sk)%nat by lia. auto.
Qed.

(** White space and the characters [:] and [-] are not word characters. *)
Lemma space_not_word (c : N) : space c = true -> word c = false.
Proof.
  unfold space, isWhiteSpace, word, digit. intros H.
  destruct (_ || _ || _ || (c =? 95)) eqn:W; [|reflexivity].
  exfalso.
  repeat (rewrite orb_true_iff in H || rewrite andb_true_iff in H
          || rewrite N.leb_le in H || rewrite N.eqb_eq in H).
  repeat (rewrite orb_true_iff in W || rewrite andb_true_iff in W
          || rewrite N.leb_le in W || rewrite N.eqb_eq in W).
  lia.
Qed.

(** Two splits of one string after a run of word characters agree on the
    character that ends the run. *)
Lemma word_run_end (w w' r r' : str) (a b : N) :
  forallb word w = true -> forallb word w' = true ->
  word a = false -> word b = false ->
  w ++ a :: r = w' ++ b :: r' -> a = b.
Proof.
  revert w'. induction w as [|c w IH]; intros [|c' w'] Hw Hw' Ha Hb E;
    simpl in *.
  - congruence.
  - inversion E; subst. apply andb_prop in Hw'. destruct Hw'. congruence.
  - inversion E; subst. apply andb_prop in Hw. destruct Hw. congruence.
  - inversion E; subst. apply andb_prop in Hw. apply andb_prop in Hw'.
    eapply IH; try eassumption; tauto.
Qed.

(** A match of the component pattern starts at index 0 with a name and a
    colon. *)
Lemma componentMatch_prefix (line : str) (m : captures) :
  exec componentRe line = Some m ->
  exists w r, line = w ++ 58 :: r /\ forallb word w = true.
Proof.
  unfold exec. intros H. apply search_sound in H.
  destruct H as (sk & s' & -> & H). apply attempt_sound in H.
  destruct H as (pre & rest & -> & L). simpl in L.
  destruct L as (p0 & q0 & -> & (-> & Z) & p1 & q1 & -> & (_ & W)
                 & p2 & q2 & -> & (a & -> & A) & _).
  assert (sk = []) by (destruct sk; [reflexivity|simpl in Z; lia]). subst.
  unfold chr in A. simpl in A. apply N.eqb_eq in A. subst.
  simpl. exists p1, (q2 ++ rest). rewrite <- !app_assoc. simpl. auto.
Qed.

(** A match of the connection pattern starts at index 0 with a name, then
    white space or the arrow. *)
Lemma connectionMatch_prefix (line : str) (m : captures) :
  exec connectionRe line = Some m ->
  exists w b r,
    line = w ++ b :: r /\ forallb word w = true /\
    (space b = true \/ b = 45).
Proof.
  unfold exec. intros H. apply search_sound in H.
  destruct H as (sk & s' & -> & H). apply attempt_sound in H.
  destruct H as (pre & rest & -> & L). simpl in L.
  destruct L as (p0 & q0 & -> & (-> & Z) & p1 & q1 & -> & (_ & W)
                 & p2 & q2 & -> & S & p3 & q3 & -> & (a & -> & A) & _).
  assert (sk = []) by (destruct sk; [reflexivity|simpl in Z; lia]). subst.
  unfold chr in A. simpl in A. apply N.eqb_eq in A. subst.
  simpl. destruct p2 as [|c p2].
  - exists p1, 45, (q3 ++ rest). rewrite <- !app_assoc. simpl. auto.
  - simpl in S. apply andb_prop in S. destruct S as [S _].
    exists p1, c, (p2 ++ 45 :: q3 ++ rest).
    repeat (rewrite <- app_assoc; simpl). auto.
Qed.

(** The two grammars exclude each other. *)
Lemma grammars_exclusive (line : str) (m : captures) :
  exec connectionRe line = Some m -> exec componentRe line = None.
Proof.
  intros H. destruct (exec componentRe line) as [m'|] eqn:E; [|reflexivity].
  exfalso.
  destruct (componentMatch_prefix _ _ E) as (w & r & Hl & Hw).
  destruct (connectionMatch_prefix _ _ H) as (w' & b & r' & Hl' & Hw' & Hb).
  rewrite Hl in Hl'.
  assert (Wb : word b = false).
  { destruct Hb as [Hb| ->]; [apply space_not_word, Hb|reflexivity]. }
  assert (58 = b)
    by (apply (word_run_end w w' r r' 58 b Hw Hw' eq_refl Wb Hl')).
  subst b. destruct Hb as [Hb|Hb]; discriminate.
Qed.

(** A match of the component pattern has six entries; the whole match, the
    name and the type are defined. *)
Lemma componentMatch_shape (line : str) (m : captures) :
  exec componentRe line = Some m ->
  exists w n t v px py, m = [Some w; Some n; Some t; v; px; py].
Proof.
  intros H. apply search_inv in H. destruct H as [L M].
  simpl in L.
  destruct (M 0%nat) as [w Hw]; [simpl; auto | simpl; lia|].
  destruct (M 1%nat) as [n Hn]; [simpl; auto | simpl; lia|].
  destruct (M 2%nat) as [t Ht]; [simpl; auto | simpl; lia|].
  destruct m as [|m0 [|m1 [|m2 [|m3 [|m4 [|m5 [|]]]]]]]; try discriminate.
  simpl in Hw, Hn, Ht. inversion Hw; inversion Hn; inversion Ht; subst.
  repeat eexists.
Qed.

(** A match of the connection pattern has three defined entries. *)
Lemma connectionMatch_shape (line : str) (m : captures) :
  exec connectionRe line = Some m ->
  exists w f t, m = [Some w; Some f; Some t].
Proof.
  intros H. apply search_inv in H. destruct H as [L M].
  simpl in L.
  destruct (M 0%nat) as [w Hw]; [simpl; auto | simpl; lia|].
  destruct (M 1%nat) as [n Hn]; [simpl; auto | simpl; lia|].
  destruct (M 2%nat) as [t Ht]; [simpl; auto | simpl; lia|].
  destruct m as [|m0 [|m1 [|m2 [|]]]]; try discriminate.
  simpl in Hw, Hn, Ht. inversion Hw; inversion Hn; inversion Ht; subst.
  repeat eexists.
Qed.

(** A greedy run takes all of a stretch of the class when the rest of the
    pattern then succeeds. *)
Lemma star_run (R : Type) (p : N -> bool) (u rest : str)
      (k : nat -> str -> option R) (r : R) :
  forall i,
    forallb p u = true ->
    (forall c t, rest = c :: t -> p c = false) ->
    k (i + length u)%nat rest = Some r ->
    star R p i (u ++ rest) k = Some r.
Proof.
  induction u as [|a u IH]; intros i Hu Hr Hk; simpl in *.
  - rewrite Nat.add_0_r in Hk. destruct rest as [|c t]; [exact Hk|].
    simpl. rewrite (Hr c t eq_refl). exact Hk.
  - apply andb_prop in Hu. destruct Hu as [Ha Hu]. rewrite Ha.
    rewrite (IH (S i) Hu Hr); [reflexivity|].
    rewrite <- Hk. f_equal. lia.
Qed.

Lemma star_all (R : Type) (p : N -> bool) (u : str)
      (k : nat -> str -> option R) (r : R) (i : nat) :
  forallb p u = true ->
  k (i + length u)%nat [] = Some r ->
  star R p i u k = Some r.
Proof.
  intros Hu Hk. rewrite <- (app_nil_r u) at 1.
  apply star_run; [exact Hu|discriminate|exact Hk].
Qed.

(** Every line made of a name, an arrow and a name, with any white space
    around the arrow, matches the connection pattern, with the two names as
    its groups. *)
Lemma connectionRe_complete (f t s1 s2 : str) :
  f <> [] -> forallb word f = true ->
  t <> [] -> forallb word t = true ->
  forallb space s1 = true -> forallb space s2 = true ->
  exec connectionRe (f ++ s1 ++ lit "->" ++ s2 ++ t)
  = Some [Some (f ++ s1 ++ lit "->" ++ s2 ++ t); Some f; Some t].
Proof.
  intros Hf Wf Ht Wt S1 S2.
  destruct f as [|a f']; [congruence|]. destruct t as [|b t']; [congruence|].
  simpl in Wf, Wt. apply andb_prop in Wf. destruct Wf as [Wa Wf].
  apply andb_prop in Wt. destruct Wt as [Wb Wt].
  assert (Nb : space b = false).
  { destruct (space b) eqn:E; [|reflexivity].
    apply space_not_word in E. congruence. }
  change (lit "->") with [45; 62].
  assert (A : attempt connectionRe 0
                (((a :: f') ++ s1 ++ [45; 62] ++ s2 ++ b :: t'))
              = Some [Some ((a :: f') ++ s1 ++ [45; 62] ++ s2 ++ b :: t');
                      Some (a :: f'); Some (b :: t')]).
  { unfold attempt, connectionRe. cbn [run groups Nat.add repeat Nat.eqb].
    change ((a :: f') ++ s1 ++ [45; 62] ++ s2 ++ b :: t')
      with (a :: f' ++ s1 ++ 45 :: 62 :: s2 ++ b :: t').
    cbv iota beta. rewrite Wa.
    apply star_run; [exact Wf| |].
    { intros c t E. destruct s1 as [|x s1]; simpl in E; injection E as <- _.
      - reflexivity.
      - simpl in S1. apply andb_prop in S1. apply space_not_word, S1. }
    apply star_run; [exact S1| |].
    { intros c t E. injection E as <- _. reflexivity. }
    change (chr "-" 45) with true. change (chr ">" 62) with true.
    cbv iota beta.
    apply star_run; [exact S2| |].
    { intros c t E. injection E as <- _. exact Nb. }
    rewrite Wb. apply star_all; [exact Wt|].
    cbn [set]. rewrite !Nat.sub_0_r.
    change (firstn (1 + length f') (a :: f' ++ s1 ++ 45 :: 62 :: s2 ++ b :: t'))
      with (a :: firstn (length f') (f' ++ s1 ++ 45 :: 62 :: s2 ++ b :: t')).
    rewrite firstn_app, firstn_all, Nat.sub_diag. simpl firstn at 2.
    rewrite (firstn_all2 (a :: f' ++ s1 ++ 45 :: 62 :: s2 ++ b :: t'))
      by (simpl; rewrite !length_app; simpl; rewrite !length_app; simpl; lia).
    rewrite (firstn_all2 (b :: t')) by (cbn [length]; lia).
    rewrite app_nil_r. reflexivity. }
  unfold exec. rewrite search_eq, A. reflexivity.
Qed.

End RegexFacts.

(** ** The parser, line by line *)

Module ParserFacts.

Import RegexFacts.

(** The component branch appends exactly one record. *)
Lemma parseLine_component (e : CircuitEngine) (line : str) (m : captures) :
  exec componentRe line = Some m ->
  exists w n t v px py,
    m = [Some w; Some n; Some t; v; px; py] /\
    parseLine e line
    = withComponents e
        (components e ++
         [ {| name := n; type := toLowerCase t;
              value := match v with Some s => s | None => [] end;
              x := jsOr (parseInt px) (autoPosition e);
              y := jsOr (parseInt py) (autoPosition e) |} ]).
Proof.
  intros H. destruct (componentMatch_shape _ _ H) as (w & n & t & v & px & py & ->).
  exists w, n, t, v, px, py. split; [reflexivity|].
  unfold parseLine. rewrite H. reflexivity.
Qed.

(** A line that matches the connection pattern takes the connection branch,
    which appends exactly one record, whatever the component list holds. *)
Lemma parseLine_connection (e : CircuitEngine) (line : str) (m : captures) :
  exec connectionRe line = Some m ->
  exists w f t,
    m = [Some w; Some f; Some t] /\
    parseLine e line
    = withConnections e (connections e ++ [ {| from := f; to := t |} ]).
Proof.
  intros H. pose proof (grammars_exclusive _ _ H) as Hc.
  destruct (connectionMatch_shape _ _ H) as (w & f & t & ->).
  exists w, f, t. split; [reflexivity|].
  unfold parseLine. rewrite Hc, H. reflexivity.
Qed.

(** No array has an element at its own length. *)
Lemma no_current_component (cs : list component) :
  nth_error cs (length cs) = None.
Proof. apply nth_error_None. lia. Qed.

(** A line that matches neither pattern reaches the auto-connection code,
    which changes nothing: [componentMatch] is null there, and so the inner
    guard fails. *)
Lemma parseLine_unmatched (e : CircuitEngine) (line : str) :
  exec componentRe line = None ->
  exec connectionRe line = None ->
  parseLine e line = e.
Proof.
  intros Hc Hn. unfold parseLine. rewrite Hc, Hn.
  destruct (_ && _); [|reflexivity].
  destruct (nth_error _ _); reflexivity.
Qed.

(** The three cases of [parseLine]. *)
Lemma parseLine_cases (e : CircuitEngine) (line : str) :
  (isComponentLine line = true /\
   exists c, parseLine e line = withComponents e (components e ++ [c])) \/
  (isComponentLine line = false /\
   exists c, connectionLine line c /\
             parseLine e line = withConnections e (connections e ++ [c])) \/
  (isComponentLine line = false /\ exec connectionRe line = None /\
   parseLine e line = e).
Proof.
  unfold isComponentLine, connectionLine.
  destruct (exec componentRe line) as [m|] eqn:Hc.
  - left. split; [reflexivity|].
    destruct (parseLine_component e _ _ Hc) as (w & n & t & v & px & py & _ & ->).
    eauto.
  - right. destruct (exec connectionRe line) as [m|] eqn:Hn.
    + left. split; [reflexivity|].
      destruct (parseLine_connection e _ _ Hn) as (w & f & t & -> & ->).
      exists {| from := f; to := t |}. simpl. eauto.
    + right. auto using parseLine_unmatched.
Qed.

Lemma parseLine_zoom (e : CircuitEngine) (line : str) :
  zoom (parseLine e line) = zoom e.
Proof.
  destruct (parseLine_cases e line)
    as [(_ & c & ->)|[(_ & c & _ & ->)|(_ & _ & ->)]]; reflexivity.
Qed.

(** [parseLine] reads the engine's two lists only. *)
Lemma parseLine_lists (e1 e2 : CircuitEngine) (line : str) :
  components e1 = components e2 ->
  connections e1 = connections e2 ->
  components (parseLine e1 line) = components (parseLine e2 line) /\
  connections (parseLine e1 line) = connections (parseLine e2 line).
Proof.
  intros Hc Hn.
  destruct (exec componentRe line) as [m|] eqn:Ec.
  - destruct (parseLine_component e1 _ _ Ec) as (w & n & t & v & px & py & Hm & ->).
    destruct (parseLine_component e2 _ _ Ec) as (w' & n' & t' & v' & px' & py' & Hm' & ->).
    rewrite Hm in Hm'. inversion Hm'; subst.
    unfold autoPosition. simpl. rewrite Hc, Hn. auto.
  - destruct (exec connectionRe line) as [m|] eqn:En.
    + destruct (parseLine_connection e1 _ _ En) as (w & f & t & Hm & ->).
      destruct (parseLine_connection e2 _ _ En) as (w' & f' & t' & Hm' & ->).
      rewrite Hm in Hm'. inversion Hm'; subst.
      simpl. rewrite Hc, Hn. auto.
    + rewrite !parseLine_unmatched by assumption. auto.
Qed.

Lemma parseLines_lists (lines : list str) :
  forall e1 e2,
    components e1 = components e2 ->
    connections e1 = connections e2 ->
    components (fold_left parseLine lines e1)
    = components (fold_left parseLine lines e2) /\
    connections (fold_left parseLine lines e1)
    = connections (fold_left parseLine lines e2).
Proof.
  induction lines as [|l r IH]; intros e1 e2 Hc Hn; simpl.
  - auto.
  - destruct (parseLine_lists e1 e2 l Hc Hn). apply IH; assumption.
Qed.

(** The component list grows by one per component line. *)
Lemma parseLines_count (lines : list str) :
  forall e,
    length (components (fold_left parseLine lines e))
    = (length (components e) + length (filter isComponentLine lines))%nat.
Proof.
  induction lines as [|l r IH]; intros e; simpl.
  - lia.
  - rewrite IH.
    destruct (parseLine_cases e l)
      as [(-> & c & ->)|[(-> & c & _ & ->)|(-> & _ & ->)]]; simpl;
      rewrite ?length_app; simpl; lia.
Qed.

(** Every connection was there before or comes from a connection line. *)
Lemma parseLines_connections (lines : list str) :
  forall e c,
    In c (connections (fold_left parseLine lines e)) ->
    In c (connections e) \/
    exists line, In line lines /\ connectionLine line c.
Proof.
  induction lines as [|l r IH]; intros e c H; simpl in H.
  - auto.
  - apply IH in H. destruct H as [H|(line & Hin & Hl)].
    + destruct (parseLine_cases e l)
        as [(_ & c' & E)|[(_ & c' & Hl & E)|(_ & _ & E)]];
        rewrite E in H; simpl in H; auto.
      apply in_app_or in H. destruct H as [H|[<-|[]]]; auto.
      right. exists l. simpl. auto.
    + right. exists line. simpl. auto.
Qed.

(** Every connection line leaves its record in the connection list. *)
Lemma parseLines_keeps (lines : list str) :
  forall e c,
    In c (connections e) ->
    In c (connections (fold_left parseLine lines e)).
Proof.
  induction lines as [|l r IH]; intros e c H; simpl; auto.
  apply IH.
  destruct (parseLine_cases e l)
    as [(_ & c' & ->)|[(_ & c' & _ & ->)|(_ & _ & ->)]]; simpl; auto.
  apply in_or_app; auto.
Qed.

Lemma connectionLine_unique (line : str) (c c' : connection) :
  connectionLine line c -> connectionLine line c' -> c = c'.
Proof.
  intros (w & H) (w' & H'). rewrite H in H'.
  destruct c, c'; simpl in *. congruence.
Qed.

Lemma parseLines_records (lines : list str) :
  forall e line c,
    In line lines -> connectionLine line c ->
    In c (connections (fold_left parseLine lines e)).
Proof.
  induction lines as [|l r IH]; intros e line c Hin Hl; simpl in *.
  - contradiction.
  - destruct Hin as [->|Hin]; [|eapply IH; eassumption].
    apply parseLines_keeps.
    destruct (parseLine_cases e line)
      as [(Hc & _)|[(_ & c' & Hl' & ->)|(_ & Hn & _)]].
    + destruct Hl as (w & Hl). unfold isComponentLine in Hc.
      rewrite (grammars_exclusive _ _ Hl) in Hc. discriminate.
    + rewrite (connectionLine_unique _ _ _ Hl Hl'). simpl.
      apply in_or_app; simpl; auto.
    + destruct Hl as (w & Hl). congruence.
Qed.

(** The three ways a call of [parseCircuitCode] ends. *)
Lemma parseCircuitCode_cases (e : CircuitEngine) (code : str) :
  (trim code = [] /\
   snd (parseCircuitCode e code) = Throw "Please enter circuit code") \/
  (trim code <> [] /\ filter isComponentLine (codeLines code) = [] /\
   snd (parseCircuitCode e code)
   = Throw "No valid components found in code") \/
  (trim code <> [] /\ filter isComponentLine (codeLines code) <> [] /\
   components (fst (parseCircuitCode e code)) <> [] /\
   snd (parseCircuitCode e code)
   = Return (components (fst (parseCircuitCode e code)),
             connections (fst (parseCircuitCode e code)))).
Proof.
  assert (L : length (components
                (fold_left parseLine (codeLines code)
                   (withConnections (withComponents e []) [])))
              = length (filter isComponentLine (codeLines code))).
  { rewrite parseLines_count. reflexivity. }
  unfold parseCircuitCode.
  destruct (trim code) as [|a t] eqn:T; [left; simpl; auto|].
  right. destruct (Nat.eqb _ 0) eqn:Z; simpl.
  - left. apply Nat.eqb_eq in Z. rewrite L in Z.
    apply length_zero_iff_nil in Z. repeat split; [discriminate|exact Z].
  - right. apply Nat.eqb_neq in Z. repeat split; try discriminate.
    + intros H. rewrite L, H in Z. simpl in Z. congruence.
    + intros H. rewrite H in Z. simpl in Z. congruence.
Qed.

(** After a call on a text that is not blank, the engine's lists are those
    of the line-by-line parse. *)
Lemma parseCircuitCode_engine (e : CircuitEngine) (code : str) :
  trim code <> [] ->
  fst (parseCircuitCode e code)
  = fold_left parseLine (codeLines code)
              (withConnections (withComponents e []) []).
Proof.
  intros H. unfold parseCircuitCode.
  destruct (trim code); [congruence|].
  destruct (Nat.eqb _ 0); reflexivity.
Qed.

End ParserFacts.

Import ParserFacts.

(** ** Parsing: results on the documented example *)

(** C1.  On the three-line example the parser returns two component records
    and one connection record, R1 with the numbers 250 and 100 as written;
    LED1, which has no written position, does not get the numbers 200 and
    100: each of its two coordinate fields holds the whole object
    [{x: 200, y: 100}] that [autoPosition()] returns. *)
Theorem parse_example1_autoPosition_object :
  parse example1
  = Return
      ([ {| name := lit "R1"; type := lit "resistor"; value := lit "330";
            x := VNum 250; y := VNum 100 |};
         {| name := lit "LED1"; type := lit "led"; value := lit "red";
            x := VPos 200 100; y := VPos 200 100 |} ],
       [ {| from := lit "R1"; to := lit "LED1" |} ])
  /\ VPos 200 100 <> VNum 200 /\ VPos 200 100 <> VNum 100.
Proof.
  split; [vm_compute; reflexivity|]. split; discriminate.
Qed.

(** C9.  A written coordinate of 0 is not stored: [parseInt] gives 0, which
    is falsy, so [||] takes the object of [autoPosition()] instead.  The
    other coordinate of the same line is stored as written. *)
Theorem parse_zero_coordinate_replaced :
  parse (lit "R1: resistor 330 (0,50)")
  = Return
      ([ {| name := lit "R1"; type := lit "resistor"; value := lit "330";
            x := VPos 100 100; y := VNum 50 |} ], [])
  /\ VPos 100 100 <> VNum 0.
Proof.
  split; [vm_compute; reflexivity | discriminate].
Qed.

(** ** Parsing: the contract *)

(** C2.  [parseCircuitCode] throws the empty-input error exactly when the
    trimmed text is empty, the no-components error exactly when the text is
    not blank and parsing leaves no component record, which is when none of
    its lines is a component line, and returns the two lists (the component
    list non-empty) in every other case; the blank, comment-only and
    connection-only examples fail as documented. *)
Theorem parseCircuitCode_contract (e : CircuitEngine) (code : str) :
  (snd (parseCircuitCode e code) = Throw "Please enter circuit code"
   <-> trim code = []) /\
  (snd (parseCircuitCode e code) = Throw "No valid components found in code"
   <-> trim code <> [] /\ components (fst (parseCircuitCode e code)) = []) /\
  (trim code <> [] ->
   (components (fst (parseCircuitCode e code)) = []
    <-> filter isComponentLine (codeLines code) = [])) /\
  (trim code <> [] -> components (fst (parseCircuitCode e code)) <> [] ->
   snd (parseCircuitCode e code)
   = Return (components (fst (parseCircuitCode e code)),
             connections (fst (parseCircuitCode e code)))) /\
  parse (lit "") = Throw "Please enter circuit code" /\
  parse (text ["   "; "  "; ""]) = Throw "Please enter circuit code" /\
  parse (text ["// just a comment"; ""])
  = Throw "No valid components found in code" /\
  parse (text ["// only wires"; "A -> B"])
  = Throw "No valid components found in code".
Proof.
  assert (Ex : parse (lit "") = Throw "Please enter circuit code" /\
               parse (text ["   "; "  "; ""])
               = Throw "Please enter circuit code" /\
               parse (text ["// just a comment"; ""])
               = Throw "No valid components found in code" /\
               parse (text ["// only wires"; "A -> B"])
               = Throw "No valid components found in code").
  { repeat split; vm_compute; reflexivity. }
  assert (N : trim code <> [] ->
              (components (fst (parseCircuitCode e code)) = []
               <-> filter isComponentLine (codeLines code) = [])).
  { intros T. rewrite parseCircuitCode_engine by exact T.
    rewrite <- !length_zero_iff_nil, parseLines_count. simpl. tauto. }
  destruct (parseCircuitCode_cases e code)
    as [(T & R)|[(T & F & R)|(T & F & C & R)]]; rewrite R.
  - split; [tauto|]. split; [|split; [exact N|split; [tauto|exact Ex]]].
    split; [discriminate|tauto].
  - split; [split; [discriminate|tauto]|].
    split; [|split; [exact N|split; [|exact Ex]]].
    + split; [intros _; split; [exact T|apply N; assumption]|reflexivity].
    + intros _ C. exfalso. apply C, N; assumption.
  - split; [split; [discriminate|tauto]|].
    split; [|split; [exact N|split; [reflexivity|exact Ex]]].
    split; [discriminate|tauto].
Qed.

Lemma parseCircuitCode_contract_witness :
  snd (parseCircuitCode newEngine example1)
  = Return (components (fst (parseCircuitCode newEngine example1)),
            connections (fst (parseCircuitCode newEngine example1))) /\
  (components (fst (parseCircuitCode newEngine example1)) = []
   <-> filter isComponentLine (codeLines example1) = []).
Proof.
  split.
  - apply (proj1 (proj2 (proj2 (proj2
             (parseCircuitCode_contract newEngine example1)))));
      vm_compute; discriminate.
  - apply (proj1 (proj2 (proj2
             (parseCircuitCode_contract newEngine example1)))).
    vm_compute. discriminate.
Defined.

(** ** Parsing: no memory of earlier parses *)

Lemma parseCircuitCode_lists (e1 e2 : CircuitEngine) (code : str) :
  snd (parseCircuitCode e1 code) = snd (parseCircuitCode e2 code) /\
  components (fst (parseCircuitCode e1 code))
  = components (fst (parseCircuitCode e2 code)) /\
  connections (fst (parseCircuitCode e1 code))
  = connections (fst (parseCircuitCode e2 code)).
Proof.
  unfold parseCircuitCode. destruct (trim code); [simpl; auto|].
  destruct (parseLines_lists (codeLines code)
              (withConnections (withComponents e1 []) [])
              (withConnections (withComponents e2 []) [])
              eq_refl eq_refl) as [Hc Hn].
  rewrite Hc. destruct (Nat.eqb _ 0); simpl; rewrite ?Hc, ?Hn; auto.
Qed.

(** C3.  Whatever two engines have parsed before, a parse of the same text
    ends the same way on both, with the same component list (positions
    included) and the same connection list, and both are those of a parse on
    a fresh engine: nothing of an earlier parse is left in a later result. *)
Theorem parseCircuitCode_history_independent
        (e1 e2 : CircuitEngine) (h1 h2 : list str) (code : str) :
  snd (parseCircuitCode (afterParses e1 h1) code)
  = snd (parseCircuitCode (afterParses e2 h2) code) /\
  snd (parseCircuitCode (afterParses e1 h1) code) = parse code /\
  components (fst (parseCircuitCode (afterParses e1 h1) code))
  = components (fst (parseCircuitCode newEngine code)) /\
  connections (fst (parseCircuitCode (afterParses e1 h1) code))
  = connections (fst (parseCircuitCode newEngine code)).
Proof.
  unfold parse.
  destruct (parseCircuitCode_lists (afterParses e1 h1) (afterParses e2 h2) code)
    as (H1 & _).
  destruct (parseCircuitCode_lists (afterParses e1 h1) newEngine code)
    as (H2 & H3 & H4).
  auto.
Qed.

(** ** Parsing: where connection records come from *)

(** C8.  Every connection record of the engine after [parseCircuitCode] (the
    list it returns) was appended for a line that matches the connection
    pattern, with the record's two names as its groups.  A line that matches
    neither pattern reaches the auto-connection code and leaves the engine
    as it was, and the guard of that code can never hold: no array has an
    element at its own length. *)
Theorem connections_only_from_connection_lines
        (e : CircuitEngine) (code : str) :
  (forall c,
     In c (connections (fst (parseCircuitCode e code))) ->
     exists line, In line (codeLines code) /\ connectionLine line c) /\
  (forall e' line,
     exec componentRe line = None -> exec connectionRe line = None ->
     parseLine e' line = e') /\
  (forall e', nth_error (components e') (length (components e')) = None).
Proof.
  split; [|split].
  - intros c. unfold parseCircuitCode.
    destruct (trim code); [simpl; contradiction|].
    assert (H : In c (connections
                  (fold_left parseLine (codeLines code)
                     (withConnections (withComponents e []) []))) ->
                exists line, In line (codeLines code) /\ connectionLine line c).
    { intros H. apply parseLines_connections in H.
      destruct H as [[]|H]; exact H. }
    destruct (Nat.eqb _ 0); simpl; exact H.
  - intros e' line. apply parseLine_unmatched.
  - intros e'. apply no_current_component.
Qed.

Lemma connections_only_from_connection_lines_witness :
  (exists line,
     In line (codeLines example1) /\
     connectionLine line {| from := lit "R1"; to := lit "LED1" |}) /\
  parseLine newEngine (lit "R1 LED1") = newEngine.
Proof.
  split.
  - apply (proj1 (connections_only_from_connection_lines newEngine example1)).
    vm_compute. left. reflexivity.
  - apply (proj1 (proj2 (connections_only_from_connection_lines
                           newEngine example1)));
      vm_compute; reflexivity.
Defined.

(** ** The renderer *)

Module RenderFacts.

Lemma eqb_eq (a b : str) : eqb a b = true <-> a = b.
Proof.
  unfold eqb. destruct (list_eq_dec N.eq_dec a b); split; congruence.
Qed.

Lemma eqb_refl (a : str) : eqb a a = true.
Proof. apply eqb_eq. reflexivity. Qed.

(** No component of the list has the name. *)
Lemma findByName_None (cs : list component) (n : str) :
  findByName cs n = None <-> ~ In n (map name cs).
Proof.
  unfold findByName. induction cs as [|c r IH]; simpl.
  - tauto.
  - destruct (eqb (name c) n) eqn:E.
    + apply eqb_eq in E. split; [discriminate|]. intros H. tauto.
    + assert (name c <> n) by (intros H; apply eqb_eq in H; congruence).
      tauto.
Qed.

(** The lookup returns the earliest record of the name. *)
Lemma findByName_first (pre post : list component) (c : component) :
  ~ In (name c) (map name pre) ->
  findByName (pre ++ c :: post) (name c) = Some c.
Proof.
  unfold findByName. induction pre as [|p r IH]; simpl; intros H.
  - rewrite eqb_refl. reflexivity.
  - destruct (eqb (name p) (name c)) eqn:E.
    + apply eqb_eq in E. tauto.
    + apply IH. tauto.
Qed.

Lemma findByName_Some (cs : list component) (n : str) :
  In n (map name cs) -> exists c, findByName cs n = Some c /\ name c = n.
Proof.
  intros H. destruct (findByName cs n) as [c|] eqn:E.
  - exists c. split; [reflexivity|].
    unfold findByName in E. apply find_some in E. apply eqb_eq, E.
  - apply findByName_None in E. contradiction.
Qed.

Lemma drawConnection_wireOf (s : svg) (conn : connection)
      (cs : list component) :
  drawConnection s conn cs = s ++ wireOf cs conn.
Proof.
  unfold drawConnection, wireOf, addConnectionDot.
  destruct (findByName cs (from conn)), (findByName cs (to conn));
    rewrite <- ?app_assoc, ?app_nil_r; reflexivity.
Qed.

Lemma drawConnections_wires (cs : list component) (conns : list connection) :
  forall s,
    fold_left (fun s' conn => drawConnection s' conn cs) conns s
    = s ++ flat_map (wireOf cs) conns.
Proof.
  induction conns as [|c r IH]; intros s; simpl.
  - rewrite app_nil_r. reflexivity.
  - rewrite IH, drawConnection_wireOf, <- app_assoc. reflexivity.
Qed.

Lemma drawSymbol_groupOf (sym : symbol) (s : svg) (c : component) :
  drawSymbol sym s c = s ++ [groupOf sym c].
Proof.
  unfold groupOf, drawSymbol. destruct (labelArgs sym) as [[v px] py].
  reflexivity.
Qed.

(** When every component has a routine, each gets its group, in order. *)
Lemma drawComponents_all (cs : list component) :
  forall s,
    Forall drawable cs ->
    drawComponents s cs = (s ++ map drawnAs cs, Return tt).
Proof.
  induction cs as [|c r IH]; intros s H; simpl.
  - rewrite app_nil_r. reflexivity.
  - inversion H as [|? ? [sym Hd] Hr]; subst.
    unfold drawComponent, drawnAs. rewrite Hd.
    rewrite IH by assumption. rewrite drawSymbol_groupOf, <- app_assoc.
    reflexivity.
Qed.

(** The first component without a routine ends the drawing. *)
Lemma drawComponents_stops (pre post : list component) (c : component)
      (m : string) :
  forall s,
    Forall drawable pre -> dispatch (type c) = Undefined m ->
    drawComponents s (pre ++ c :: post)
    = (s ++ map drawnAs pre, Throw ("this." ++ m ++ " is not a function")).
Proof.
  induction pre as [|p r IH]; intros s H Hd; simpl.
  - unfold drawComponent. rewrite Hd, app_nil_r. reflexivity.
  - inversion H as [|? ? [sym Hp] Hr]; subst.
    unfold drawComponent at 1, drawnAs at 1. rewrite Hp.
    rewrite IH by assumption. rewrite drawSymbol_groupOf, <- app_assoc.
    reflexivity.
Qed.

(** The parser appends a record for every component line, in parse order,
    whether or not the name is already in the list. *)
Lemma parseLines_names (lines : list str) :
  forall e,
    map name (components (fold_left parseLine lines e))
    = map name (components e) ++ flat_map declaredName lines.
Proof.
  induction lines as [|l r IH]; intros e; simpl.
  - rewrite app_nil_r. reflexivity.
  - rewrite IH. unfold declaredName at 2.
    destruct (exec componentRe l) as [m|] eqn:Ec.
    + destruct (ParserFacts.parseLine_component e _ _ Ec)
        as (w & n & t & v & px & py & -> & ->).
      simpl. rewrite map_app, <- app_assoc. reflexivity.
    + destruct (ParserFacts.parseLine_cases e l)
        as [(Hc & _)|[(_ & c & _ & ->)|(_ & _ & ->)]]; simpl; auto.
      unfold isComponentLine in Hc. rewrite Ec in Hc.
      discriminate.
Qed.

End RenderFacts.

Import RenderFacts.

(** C4.  Whenever the text is not blank and declares a component, the
    parse ends normally, and every connection line has left its record in
    the returned connection list, whether or not its names are declared:
    every line made of a name, an arrow and a name, with any white space
    around the arrow, is such a line and leaves the record of its two names.
    [drawConnection] leaves the scene as it was when either name matches no
    component of the list it is given; it has no way to throw.  When both
    names match, it appends the wire line and the two terminal dots; so the
    wires of a scene are those of the connections with two matching
    endpoints. *)
Theorem dangling_connection_parsed_not_drawn :
  (forall e code,
     trim code <> [] -> filter isComponentLine (codeLines code) <> [] ->
     exists cs conns,
       snd (parseCircuitCode e code) = Return (cs, conns) /\
       (forall line c,
          In line (codeLines code) -> connectionLine line c -> In c conns) /\
       (forall f t s1 s2,
          token word f -> token word t ->
          forallb space s1 = true -> forallb space s2 = true ->
          In (f ++ s1 ++ lit "->" ++ s2 ++ t) (codeLines code) ->
          In {| from := f; to := t |} conns)) /\
  (forall s conn cs,
     ~ In (from conn) (map name cs) \/ ~ In (to conn) (map name cs) ->
     drawConnection s conn cs = s) /\
  (forall s conn cs,
     In (from conn) (map name cs) -> In (to conn) (map name cs) ->
     exists a b,
       findByName cs (from conn) = Some a /\ name a = from conn /\
       findByName cs (to conn) = Some b /\ name b = to conn /\
       drawConnection s conn cs
       = s ++ [ Line (jsAdd (x a) 40) (jsAdd (y a) 20) (x b) (jsAdd (y b) 20);
                Circle (jsAdd (x a) 40) (jsAdd (y a) 20);
                Circle (x b) (jsAdd (y b) 20) ]) /\
  (forall cs conns s,
     fold_left (fun s' conn => drawConnection s' conn cs) conns s
     = s ++ flat_map (wireOf cs) conns).
Proof.
  split; [|split; [|split]].
  - intros e code T F.
    destruct (parseCircuitCode_cases e code)
      as [(T' & _)|[(_ & F' & _)|(_ & _ & _ & R)]]; try contradiction.
    do 2 eexists. split; [exact R|]. split.
    + intros line c Hin Hl. rewrite parseCircuitCode_engine by exact T.
      eapply parseLines_records; eassumption.
    + intros f t s1 s2 [Hf Wf] [Ht Wt] S1 S2 Hin.
      rewrite parseCircuitCode_engine by exact T.
      eapply parseLines_records; [exact Hin|].
      eexists. apply RegexFacts.connectionRe_complete; assumption.
  - intros s conn cs H. rewrite drawConnection_wireOf. unfold wireOf.
    destruct H as [H|H]; apply findByName_None in H; rewrite H.
    + apply app_nil_r.
    + destruct (findByName cs (from conn)); apply app_nil_r.
  - intros s conn cs Hf Ht.
    destruct (findByName_Some _ _ Hf) as (a & Ea & Na).
    destruct (findByName_Some _ _ Ht) as (b & Eb & Nb).
    exists a, b. rewrite drawConnection_wireOf. unfold wireOf.
    rewrite Ea, Eb. auto.
  - intros cs conns s. apply drawConnections_wires.
Qed.

Lemma dangling_connection_parsed_not_drawn_witness :
  (exists cs conns,
     snd (parseCircuitCode newEngine example_dangling) = Return (cs, conns) /\
     In {| from := lit "R1"; to := lit "X9" |} conns /\
     ~ In (lit "X9") (map name cs)) /\
  drawConnection [Defs; GridRect] {| from := lit "R1"; to := lit "X9" |}
                 example_dangling_components
  = [Defs; GridRect] /\
  exists a b,
    findByName example_dangling_components (lit "R1") = Some a /\
    name a = lit "R1" /\
    findByName example_dangling_components (lit "LED1") = Some b /\
    name b = lit "LED1" /\
    drawConnection [Defs; GridRect] {| from := lit "R1"; to := lit "LED1" |}
                   example_dangling_components
    = [Defs; GridRect]
      ++ [ Line (jsAdd (x a) 40) (jsAdd (y a) 20) (x b) (jsAdd (y b) 20);
           Circle (jsAdd (x a) 40) (jsAdd (y a) 20);
           Circle (x b) (jsAdd (y b) 20) ].
Proof.
  split; [|split].
  - destruct (proj1 dangling_connection_parsed_not_drawn newEngine
                    example_dangling)
      as (cs & conns & R & _ & S); [vm_compute; discriminate ..|].
    exists cs, conns. split; [exact R|]. split.
    + apply (S (lit "R1") (lit "X9") [32] [32]);
        [split; [discriminate|reflexivity] ..
        |reflexivity|reflexivity|vm_compute; auto].
    + vm_compute in R. injection R as <- _. vm_compute.
      intros [E|[E|[]]]; discriminate.
  - apply (proj1 (proj2 dangling_connection_parsed_not_drawn)).
    right. vm_compute. intros [E|[E|[]]]; discriminate.
  - apply (proj1 (proj2 (proj2 dangling_connection_parsed_not_drawn))
                 [Defs; GridRect] {| from := lit "R1"; to := lit "LED1" |}
                 example_dangling_components);
      vm_compute; auto.
Defined.

Example parse_example_dangling :
  parse example_dangling
  = Return (example_dangling_components, example_dangling_connections).
Proof. vm_compute. reflexivity. Qed.

(** The scene of the example: the grid, then the one wire with its dots,
    then the two symbols; nothing for the dangling connection. *)
Example generateCircuit_example_dangling :
  generateCircuit example_dangling_components example_dangling_connections
  = ([ Defs; GridRect;
       Line (VNum 290) (VNum 120) (VNum 400) (VNum 120);
       Circle (VNum 290) (VNum 120);
       Circle (VNum 400) (VNum 120);
       Group Resistor (VNum 250) (VNum 100)
             [ {| content := lit "R1"; lx := 40; ly := 50 |};
               {| content := lit "330"; lx := 40; ly := 65 |} ];
       Group LED (VNum 400) (VNum 100)
             [ {| content := lit "LED1"; lx := 40; ly := 50 |};
               {| content := lit "red"; lx := 40; ly := 65 |} ] ],
     Return tt).
Proof. vm_compute. reflexivity. Qed.

(** ** Duplicate names *)

(** C10.  Two declarations of one name whose type is [oled]: the parser
    keeps both records, in order, but the renderer draws neither.  The
    [case 'oled'] of [drawComponent] calls [this.drawOLED], which the class
    does not define, so the first record ends [generateCircuit] with a
    [TypeError] and the scene holds the grid only. *)
Theorem duplicate_oled_kept_not_drawn :
  parse example_duplicate = Return (example_duplicate_components, []) /\
  generateCircuit example_duplicate_components []
  = ([Defs; GridRect], Throw "this.drawOLED is not a function").
Proof. split; vm_compute; reflexivity. Qed.

(** Where every component has a routine, duplicates are handled as the
    claim says: the parser appends one record per component line, in order;
    each record gets its own group after the grid and the wires; and a name
    is looked up as its earliest record. *)
Lemma duplicates_with_routines (lines : list str) (e : CircuitEngine)
      (cs pre post : list component) (conns : list connection)
      (c : component) :
  Forall drawable cs ->
  ~ In (name c) (map name pre) ->
  map name (components (fold_left parseLine lines e))
  = map name (components e) ++ flat_map declaredName lines /\
  generateCircuit cs conns
  = (addGrid [] ++ flat_map (wireOf cs) conns ++ map drawnAs cs, Return tt) /\
  findByName (pre ++ c :: post) (name c) = Some c.
Proof.
  intros Hd Hn. split; [apply parseLines_names|split].
  - unfold generateCircuit. rewrite drawConnections_wires.
    rewrite drawComponents_all by assumption. rewrite <- app_assoc.
    reflexivity.
  - apply findByName_first. assumption.
Qed.

Example duplicate_resistors_both_drawn :
  generateCircuit
    [ {| name := lit "R1"; type := lit "resistor"; value := lit "1k";
         x := VNum 100; y := VNum 100 |};
      {| name := lit "R1"; type := lit "resistor"; value := lit "2k";
         x := VNum 300; y := VNum 100 |} ]
    [ {| from := lit "R1"; to := lit "R1" |} ]
  = ([ Defs; GridRect;
       Line (VNum 140) (VNum 120) (VNum 100) (VNum 120);
       Circle (VNum 140) (VNum 120);
       Circle (VNum 100) (VNum 120);
       Group Resistor (VNum 100) (VNum 100)
             [ {| content := lit "R1"; lx := 40; ly := 50 |};
               {| content := lit "1k"; lx := 40; ly := 65 |} ];
       Group Resistor (VNum 300) (VNum 100)
             [ {| content := lit "R1"; lx := 40; ly := 50 |};
               {| content := lit "2k"; lx := 40; ly := 65 |} ] ],
     Return tt).
Proof. vm_compute. reflexivity. Qed.

(** ** PNG export *)

(** C7.  When the browser cannot decode the image source, it delivers the
    error event to an image that has no error handler: nothing is
    downloaded, no error is reported, and the only thing the user sees is
    the success message that the page script shows as soon as the engine's
    call returns. *)
Theorem exportPNG_decode_failure_unreported (svgData : str) :
  btoaAccepts svgData = true ->
  exportPNG svgData Error
  = [Message "Circuit exported as PNG successfully" "success"] /\
  exportPNG svgData Load
  = [Message "Circuit exported as PNG successfully" "success";
     Download "circuit-diagram.png"].
Proof.
  intros H. unfold exportPNG, engineExportPNG. rewrite H. simpl. auto.
Qed.

Lemma exportPNG_decode_failure_unreported_witness :
  exportPNG (lit "<svg></svg>") Error
  = [Message "Circuit exported as PNG successfully" "success"] /\
  exportPNG (lit "<svg></svg>") Load
  = [Message "Circuit exported as PNG successfully" "success";
     Download "circuit-diagram.png"].
Proof.
  apply (exportPNG_decode_failure_unreported (lit "<svg></svg>")).
  vm_compute. reflexivity.
Defined.

(** ** Zoom *)

Module ZoomFacts.

Lemma memF_In (z : float) (l : list float) : memF z l = true <-> In z l.
Proof.
  unfold memF. rewrite existsb_exists. split.
  - intros (y & Hy & E). apply FloatAxioms.Leibniz.eqb_spec in E.
    subst. assumption.
  - intros H. exists z. split; [assumption|].
    apply FloatAxioms.Leibniz.eqb_spec. reflexivity.
Qed.

Lemma zoomLevels_initial : In 1%float zoomLevels.
Proof. apply memF_In. vm_compute. reflexivity. Qed.

Lemma zoomLevels_closed :
  forallb (fun z => memF (levelIn z) zoomLevels
                    && memF (levelOut z) zoomLevels) zoomLevels = true.
Proof. vm_compute. reflexivity. Qed.

Lemma zoomLevels_ok : forallb levelOk zoomLevels = true.
Proof. vm_compute. reflexivity. Qed.

Lemma zoomStep_level (st : CircuitEngine * page) (c : zoomCall) :
  In (zoom (fst st)) zoomLevels -> In (zoom (fst (zoomStep st c))) zoomLevels.
Proof.
  intros H. pose proof zoomLevels_closed as C.
  rewrite forallb_forall in C. specialize (C _ H).
  apply andb_prop in C. destruct C as [Ci Co].
  destruct c; apply memF_In; [exact Ci | exact Co].
Qed.

Lemma zoomCalls_level (cs : list zoomCall) :
  forall st,
    In (zoom (fst st)) zoomLevels ->
    In (zoom (fst (zoomCalls st cs))) zoomLevels.
Proof.
  induction cs as [|c r IH]; intros st H; simpl.
  - exact H.
  - apply IH, zoomStep_level, H.
Qed.

(** The zoom calls write the zoom factor and the scale of the page only. *)
Lemma zoomCalls_frame (cs : list zoomCall) :
  forall st,
    components (fst (zoomCalls st cs)) = components (fst st) /\
    connections (fst (zoomCalls st cs)) = connections (fst st) /\
    scene (snd (zoomCalls st cs)) = scene (snd st).
Proof.
  induction cs as [|c r IH]; intros st; simpl.
  - auto.
  - destruct (IH (zoomStep st c)) as (H1 & H2 & H3).
    rewrite H1, H2, H3. destruct c; simpl; auto.
Qed.

End ZoomFacts.

Import ZoomFacts.

(** C6, as the code has it.  From the initial factor 1, after any finite
    sequence of [zoomIn] and [zoomOut] calls the factor is a double within
    [0.5, 3]; a further [zoomIn] does not lower it and raises it by at most
    0.1 up to the rounding of the double addition (never by more than
    0.1 + 10^-16), a further [zoomOut] does not raise it and lowers it by at
    most as much; and the calls leave the component list, the connection
    list and the elements of the scene as they were. *)
Theorem zoom_clamped (e : CircuitEngine) (p : page) (calls : list zoomCall) :
  zoom e = 1%float ->
  let st := zoomCalls (e, p) calls in
  let z := zoom (fst st) in
  (finite z = true /\
   PrimFloat.leb 0.5 z = true /\ PrimFloat.leb z 3 = true /\
   (1 # 2 <= toQ z)%Q /\ (toQ z <= 3)%Q) /\
  ((0 <= toQ (zoom (fst (zoomIn (fst st) (snd st)))) - toQ z)%Q /\
   (toQ (zoom (fst (zoomIn (fst st) (snd st)))) - toQ z
    <= (1 # 10) + tolerance)%Q) /\
  ((0 <= toQ z - toQ (zoom (fst (zoomOut (fst st) (snd st)))))%Q /\
   (toQ z - toQ (zoom (fst (zoomOut (fst st) (snd st))))
    <= (1 # 10) + tolerance)%Q) /\
  components (fst st) = components e /\
  connections (fst st) = connections e /\
  scene (snd st) = scene p.
Proof.
  intros Hz st z.
  assert (Hin : In z zoomLevels).
  { apply zoomCalls_level. simpl. rewrite Hz. apply zoomLevels_initial. }
  pose proof zoomLevels_ok as Ok. rewrite forallb_forall in Ok.
  specialize (Ok _ Hin). unfold levelOk in Ok.
  repeat (apply andb_prop in Ok; let H := fresh "K" in destruct Ok as [Ok H]).
  rewrite Qle_bool_iff in K, K0, K1, K2, K3, K4.
  destruct (zoomCalls_frame calls (e, p)) as (F1 & F2 & F3).
  repeat split; auto.
Qed.

Lemma zoom_clamped_witness :
  PrimFloat.leb
    (zoom (fst (zoomCalls (newEngine, {| scene := [Defs]; scale := None |})
                          [In_; In_; Out_])))
    3 = true /\
  scene (snd (zoomCalls (newEngine, {| scene := [Defs]; scale := None |})
                        [In_; In_; Out_]))
  = [Defs].
Proof.
  pose proof (zoom_clamped newEngine {| scene := [Defs]; scale := None |}
                           [In_; In_; Out_] eq_refl) as H.
  cbv zeta in H. split; [apply H | apply H].
Defined.

(** Against C6 as written: the step bound fails at the first call.
    [1 + 0.1] is rounded up to the double 1.1, which exceeds 1 by more than
    one tenth (and by more than the double nearest to one tenth). *)
#[warnings="-inexact-float"]
Lemma zoomIn_raises_by_more_than_tenth :
  ~ (toQ (zoom (fst (zoomIn newEngine {| scene := []; scale := None |})))
     - toQ (zoom newEngine) <= 1 # 10)%Q
  /\ PrimFloat.leb
       (zoom (fst (zoomIn newEngine {| scene := []; scale := None |}))
        - zoom newEngine)%float 0.1%float = false.
Proof.
  split; [|vm_compute; reflexivity].
  rewrite <- Qle_bool_iff. vm_compute. discriminate.
Qed.

(** ** The validator *)

Module ValidatorFacts.

Lemma scanLine_classify (st : scan) (i : nat) (line : str) :
  scanLine st i line
  = {| errors := errors st
                 ++ lineErrors (componentNames st) (Z.of_nat i + 1)
                               (classify line);
       componentNames := lineNames (componentNames st) (classify line);
       pending := pending st
                  ++ linePending (Z.of_nat i + 1) (classify line) |}.
Proof.
  destruct st as [es ns ps]. unfold scanLine, classify. simpl.
  destruct (trim line) as [|a t]; [simpl; rewrite !app_nil_r; reflexivity|].
  destruct (startsWith _ _); [simpl; rewrite !app_nil_r; reflexivity|].
  destruct (exec componentRe _) as [m|].
  - destruct m as [|m0 [|[n|] [|[ty|] [|v [|px [|py [|]]]]]]];
      simpl; rewrite ?app_nil_r; try reflexivity.
    destruct (has ns n), (isValidType (toLowerCase ty));
      simpl; rewrite <- ?app_assoc, ?app_nil_r; reflexivity.
  - destruct (exec connectionRe _) as [m|].
    + destruct m as [|m0 [|[f|] [|[t'|] [|]]]];
        simpl; rewrite ?app_nil_r; reflexivity.
    + simpl. rewrite ?app_nil_r. reflexivity.
Qed.

Lemma scanLines_spec (lines : list str) :
  forall st k,
    scanLines st k lines
    = {| errors := errors st ++ errs (componentNames st) k lines;
         componentNames := namesAfter (componentNames st) lines;
         pending := pending st ++ pend k lines |}.
Proof.
  induction lines as [|l r IH]; intros st k; simpl.
  - rewrite !app_nil_r. destruct st; reflexivity.
  - rewrite IH, scanLine_classify. simpl. rewrite <- !app_assoc.
    reflexivity.
Qed.

Lemma diagnose_spec (code : str) :
  diagnose code
  = errs [] 0 (split LF code)
    ++ flat_map (checkEndpoints (namesAfter [] (split LF code)))
                (pend 0 (split LF code)).
Proof. unfold diagnose. rewrite scanLines_spec. reflexivity. Qed.

(** Membership in the set of names. *)
Lemma has_app (s1 s2 : list str) (n : str) :
  has (s1 ++ s2) n = has s1 n || has s2 n.
Proof. unfold has. apply existsb_app. Qed.

Lemma has_add (s : list str) (m n : str) :
  has (add s m) n = has s n || eqb n m.
Proof.
  unfold add. destruct (has s m) eqn:E.
  - destruct (eqb n m) eqn:E'; [|rewrite orb_false_r; reflexivity].
    apply RenderFacts.eqb_eq in E'. subst. rewrite E. reflexivity.
  - rewrite has_app. unfold has at 2. simpl. rewrite orb_false_r.
    reflexivity.
Qed.

Lemma has_namesAfter (lines : list str) :
  forall names n,
    has (namesAfter names lines) n
    = has names n || has (declaredNames lines) n.
Proof.
  induction lines as [|l r IH]; intros names n; simpl.
  - rewrite orb_false_r. reflexivity.
  - rewrite IH. unfold declaredNames. simpl. rewrite has_app.
    fold (declaredNames r).
    destruct (classify l); simpl; rewrite ?has_add; try reflexivity.
    unfold has at 3. simpl. rewrite orb_false_r, orb_assoc. reflexivity.
Qed.

(** Line numbers of what a line contributes. *)
Lemma lineErrors_line (names : list str) (lineNo : Z) (k : lineKind) :
  forall d, In d (lineErrors names lineNo k) -> lineOf d = lineNo.
Proof.
  intros d. destruct k as [|n t|f t|]; simpl; try tauto.
  - destruct (has names n), (isValidType (toLowerCase t)); simpl;
      intuition (subst; reflexivity).
  - intros [<-|[]]. reflexivity.
Qed.

Lemma endpoints_line (names : list str) (lineNo : Z) (k : lineKind) :
  forall d,
    In d (flat_map (checkEndpoints names) (linePending lineNo k)) ->
    lineOf d = lineNo.
Proof.
  intros d. destruct k as [|n t|f t|]; simpl; try tauto.
  unfold checkEndpoints. simpl.
  destruct (has names f), (has names t); simpl;
    intuition (subst; reflexivity).
Qed.

Lemma errs_range (lines : list str) :
  forall names k d,
    In d (errs names k lines) ->
    (Z.of_nat k + 1 <= lineOf d <= Z.of_nat k + Z.of_nat (length lines))%Z.
Proof.
  induction lines as [|l r IH]; intros names k d H; simpl in H.
  - contradiction.
  - apply in_app_or in H. destruct H as [H|H].
    + apply lineErrors_line in H. simpl length. lia.
    + apply IH in H. simpl length. lia.
Qed.

Lemma pend_range (lines : list str) :
  forall names k d,
    In d (flat_map (checkEndpoints names) (pend k lines)) ->
    (Z.of_nat k + 1 <= lineOf d <= Z.of_nat k + Z.of_nat (length lines))%Z.
Proof.
  induction lines as [|l r IH]; intros names k d H; simpl in H.
  - contradiction.
  - rewrite flat_map_app in H. apply in_app_or in H. destruct H as [H|H].
    + apply endpoints_line in H. simpl length. lia.
    + apply IH in H. simpl length. lia.
Qed.

Lemma filter_none (n : Z) (l : list diagnostic) :
  (forall d, In d l -> lineOf d <> n) -> filter (onLine n) l = [].
Proof.
  induction l as [|a r IH]; intros H; simpl; [reflexivity|].
  unfold onLine at 1. destruct (Z.eqb_spec (lineOf a) n) as [E|E].
  - exfalso. apply (H a); simpl; auto.
  - apply IH. intros d Hd. apply H. simpl; auto.
Qed.

Lemma filter_all (n : Z) (l : list diagnostic) :
  (forall d, In d l -> lineOf d = n) -> filter (onLine n) l = l.
Proof.
  induction l as [|a r IH]; intros H; simpl; [reflexivity|].
  unfold onLine at 1. rewrite (H a) by (simpl; auto).
  rewrite Z.eqb_refl, IH; [reflexivity|].
  intros d Hd. apply H. simpl; auto.
Qed.

(** The diagnostics of the scan that carry the number of line [i]. *)
Lemma errs_onLine (lines : list str) :
  forall names k i line,
    nth_error lines i = Some line ->
    filter (onLine (Z.of_nat (k + i) + 1)) (errs names k lines)
    = lineErrors (namesAfter names (firstn i lines))
                 (Z.of_nat (k + i) + 1) (classify line).
Proof.
  induction lines as [|l r IH]; intros names k i line H.
  - destruct i; discriminate.
  - simpl errs. rewrite filter_app. destruct i as [|i]; simpl in H.
    + inversion H; subst. rewrite Nat.add_0_r. simpl.
      rewrite filter_all by apply lineErrors_line.
      rewrite filter_none; [apply app_nil_r|].
      intros d Hd. apply errs_range in Hd. lia.
    + rewrite filter_none.
      * simpl. replace (k + S i)%nat with (S k + i)%nat by lia.
        apply IH. exact H.
      * intros d Hd. apply lineErrors_line in Hd. lia.
Qed.

Lemma pend_onLine (lines : list str) :
  forall names k i line,
    nth_error lines i = Some line ->
    filter (onLine (Z.of_nat (k + i) + 1))
           (flat_map (checkEndpoints names) (pend k lines))
    = flat_map (checkEndpoints names)
               (linePending (Z.of_nat (k + i) + 1) (classify line)).
Proof.
  induction lines as [|l r IH]; intros names k i line H.
  - destruct i; discriminate.
  - simpl pend. rewrite flat_map_app, filter_app.
    destruct i as [|i]; simpl in H.
    + inversion H; subst. rewrite Nat.add_0_r.
      rewrite filter_all by apply endpoints_line.
      rewrite filter_none; [apply app_nil_r|].
      intros d Hd. apply pend_range in Hd. lia.
    + rewrite filter_none.
      * simpl. replace (k + S i)%nat with (S k + i)%nat by lia.
        apply IH. exact H.
      * intros d Hd. apply endpoints_line in Hd. lia.
Qed.

(** What the validator reports for a line is what the line deserves. *)
Lemma contribution_lineDiagnostics (earlier all : list str) (lineNo : Z)
      (k : lineKind) :
  lineErrors (namesAfter [] earlier) lineNo k
  ++ flat_map (checkEndpoints (namesAfter [] all)) (linePending lineNo k)
  = lineDiagnostics (declaredNames earlier) (declaredNames all) lineNo k.
Proof.
  destruct k as [|n t|f t|]; simpl; try reflexivity.
  - rewrite has_namesAfter, app_nil_r. reflexivity.
  - unfold checkEndpoints. simpl. rewrite !has_namesAfter, app_nil_r.
    reflexivity.
Qed.

Lemma lineDiagnostics_le_2 (earlier all : list str) (lineNo : Z)
      (k : lineKind) :
  (length (lineDiagnostics earlier all lineNo k) <= 2)%nat.
Proof.
  destruct k as [|n t|f t|]; simpl; try lia.
  - destruct (has earlier n), (isValidType (toLowerCase t)); simpl; lia.
  - destruct (has all f), (has all t); simpl; lia.
Qed.

Lemma diagnose_onLine (code : str) (i : nat) (line : str) :
  nth_error (split LF code) i = Some line ->
  filter (onLine (Z.of_nat i + 1)) (diagnose code)
  = lineDiagnostics (declaredNames (firstn i (split LF code)))
                    (declaredNames (split LF code)) (Z.of_nat i + 1)
                    (classify line).
Proof.
  intros H. rewrite diagnose_spec, filter_app.
  pose proof (errs_onLine _ [] 0 i line H) as E.
  pose proof (pend_onLine _ (namesAfter [] (split LF code)) 0 i line H) as P.
  simpl in E, P. rewrite E, P.
  apply contribution_lineDiagnostics.
Qed.

Lemma diagnose_line (code : str) (d : diagnostic) :
  In d (diagnose code) ->
  exists i line,
    nth_error (split LF code) i = Some line /\ lineOf d = (Z.of_nat i + 1)%Z.
Proof.
  intros H. rewrite diagnose_spec in H. apply in_app_or in H.
  assert (R : (1 <= lineOf d <= Z.of_nat (length (split LF code)))%Z).
  { destruct H as [H|H]; [apply errs_range in H|apply pend_range in H];
      simpl in H; lia. }
  destruct (nth_error (split LF code) (Z.to_nat (lineOf d - 1))) as [l|] eqn:E.
  - exists (Z.to_nat (lineOf d - 1)), l. split; [exact E|lia].
  - apply nth_error_None in E. lia.
Qed.

End ValidatorFacts.

Import ValidatorFacts.

(** C5, as the code has it.  [validateCircuitCode] returns, for every text,
    the messages of its diagnostics, each of one of the four kinds.  For
    every line of the text, the diagnostics carrying its number are exactly
    those the line deserves, one per offence: none for a clean line, one or
    two for an offending one (a component line can be a duplicate and of
    unknown type, a connection line can have two dangling endpoints).
    Every diagnostic carries the number of a line of the text, and the list
    is empty exactly when no line offends.  The validator takes the text
    only: it has no access to the engine. *)
Theorem validate_one_diagnostic_per_offence (code : str) :
  validateCircuitCode code = map message (diagnose code) /\
  (forall i line,
     nth_error (split LF code) i = Some line ->
     filter (onLine (Z.of_nat i + 1)) (diagnose code)
     = lineDiagnostics (declaredNames (firstn i (split LF code)))
                       (declaredNames (split LF code)) (Z.of_nat i + 1)
                       (classify line) /\
     (length (filter (onLine (Z.of_nat i + 1)) (diagnose code)) <= 2)%nat) /\
  (forall d,
     In d (diagnose code) ->
     exists i line,
       nth_error (split LF code) i = Some line /\
       lineOf d = (Z.of_nat i + 1)%Z) /\
  (validateCircuitCode code = [] <->
   forall i line,
     nth_error (split LF code) i = Some line ->
     lineDiagnostics (declaredNames (firstn i (split LF code)))
                     (declaredNames (split LF code)) (Z.of_nat i + 1)
                     (classify line) = []).
Proof.
  split; [reflexivity|]. split; [|split].
  - intros i line H. rewrite (diagnose_onLine code i line H).
    split; [reflexivity|apply lineDiagnostics_le_2].
  - apply diagnose_line.
  - unfold validateCircuitCode. split.
    + intros E i line H. apply map_eq_nil in E.
      rewrite <- (diagnose_onLine code i line H), E. reflexivity.
    + intros H. destruct (diagnose code) as [|d r] eqn:E; [reflexivity|].
      exfalso.
      destruct (diagnose_line code d) as (i & line & Hn & Hl);
        [rewrite E; simpl; auto|].
      pose proof (diagnose_onLine code i line Hn) as C.
      rewrite (H i line Hn), E in C. simpl in C.
      unfold onLine in C at 1. rewrite Hl, Z.eqb_refl in C. discriminate.
Qed.

Lemma validate_one_diagnostic_per_offence_witness :
  filter (onLine 2) (diagnose example_clean_and_dirty)
  = [DuplicateName 2 (lit "R1"); UnknownType 2 (lit "widget")] /\
  exists i line,
    nth_error (split LF example_clean_and_dirty) i = Some line /\
    lineOf (InvalidSyntax 4) = (Z.of_nat i + 1)%Z.
Proof.
  split.
  - apply (proj1 (proj1 (proj2 (validate_one_diagnostic_per_offence
                                  example_clean_and_dirty))
                        1%nat (lit "R1: widget") eq_refl)).
  - apply (proj1 (proj2 (proj2 (validate_one_diagnostic_per_offence
                                  example_clean_and_dirty)))).
    vm_compute. auto.
Defined.

Example validate_example_clean_and_dirty :
  validateCircuitCode example_clean_and_dirty
  = [ lit "Line 2: Duplicate component name 'R1'";
      lit "Line 2: Unknown component type 'widget'";
      lit "Line 4: Invalid syntax";
      lit "Line 3: Component 'LED1' not found" ].
Proof. vm_compute. reflexivity. Qed.

(** Against C5 as written: one diagnostic per offending line fails on a
    connection line whose two endpoints are undeclared, and on a component
    line that repeats a name with an unknown type.  Each is one offending
    line with two diagnostics. *)
Lemma validate_two_diagnostics_one_line :
  length (validateCircuitCode (lit "A -> B")) <> 1%nat /\
  length (filter (onLine 1) (diagnose (lit "A -> B"))) = 2%nat /\
  length (filter (onLine 2)
                 (diagnose (text ["R1: resistor 330"; "R1: widget"])))
  = 2%nat.
Proof.
  split; [vm_compute; discriminate|]. split; vm_compute; reflexivity.
Qed.


(** * Further properties of the parser *)

Module TokenFacts.

Import RegexFacts.

Lemma set_inv (n m : nat) (v : option str) (w : str) (c : captures) :
  nth_error (set n v c) m = Some (Some w) ->
  (m = n /\ v = Some w) \/ nth_error c m = Some (Some w).
Proof.
  destruct (Nat.eq_dec n m) as [<-|Hne]; intros H.
  - destruct (Nat.lt_ge_cases n (length c)) as [Hlt|Hge].
    + rewrite set_same in H by exact Hlt. inversion H; subst. auto.
    + assert (E : nth_error (set n v c) n = None).
      { apply nth_error_None. rewrite set_length. exact Hge. }
      congruence.
  - rewrite set_other in H by exact Hne. auto.
Qed.

(** The matcher hands its continuation an array whose defined entries are
    what the groups matched. *)
Lemma run_caps (R : Type) (G : nat -> str -> Prop) (r : re) :
  groupsSat G r ->
  forall i s c (k : nat -> str -> captures -> option R) res,
    capsSat G c ->
    run R r i s c k = Some res ->
    exists pre s' c',
      s = pre ++ s' /\ lang r i pre s' /\ capsSat G c' /\
      k (i + length pre)%nat s' c' = Some res.
Proof.
  induction r as [| |p|p|p|a IHa b IHb|a IHa|n a IHa];
    intros HG i s c k res Hc H.
  - simpl in H. destruct (Nat.eqb i 0) eqn:E; [|discriminate].
    apply Nat.eqb_eq in E.
    exists [], s, c. simpl. rewrite Nat.add_0_r. auto.
  - simpl in H. destruct s; [|discriminate].
    exists [], [], c. simpl. rewrite Nat.add_0_r. auto.
  - simpl in H. destruct s as [|a s]; [discriminate|].
    destruct (p a) eqn:Pa; [|discriminate].
    exists [a], s, c. simpl. replace (i + 1)%nat with (S i) by lia.
    repeat split; eauto.
  - simpl in H. apply star_sound in H.
    destruct H as (pre & s' & -> & Hp & Hk). exists pre, s', c. auto.
  - simpl in H. destruct s as [|a s]; [discriminate|].
    destruct (p a) eqn:Pa; [|discriminate].
    apply star_sound in H. destruct H as (pre & s' & -> & Hp & Hk).
    exists (a :: pre), s', c. simpl. rewrite Pa, Hp.
    replace (i + S (length pre))%nat with (S i + length pre)%nat by lia.
    repeat split; auto. discriminate.
  - simpl in H, HG. destruct HG as [Ga Gb].
    apply (IHa Ga) in H; [|exact Hc].
    destruct H as (p1 & s1 & c1 & -> & L1 & C1 & H).
    apply (IHb Gb) in H; [|exact C1].
    destruct H as (p2 & s2 & c2 & -> & L2 & C2 & H).
    exists (p1 ++ p2), s2, c2. rewrite <- app_assoc, length_app.
    rewrite Nat.add_assoc. repeat split; auto.
    simpl. exists p1, p2. auto.
  - simpl in H, HG. destruct (run R a i s c k) eqn:E.
    + inversion H; subst. apply (IHa HG) in E; [|exact Hc].
      destruct E as (pre & s' & c' & -> & L & C & Hk).
      exists pre, s', c'. simpl. auto.
    + exists [], s, c. simpl. rewrite Nat.add_0_r. auto.
  - simpl in H, HG. destruct HG as [Gn Ga].
    apply (IHa Ga) in H; [|exact Hc].
    destruct H as (pre & s' & c' & -> & L & C & Hk).
    replace (i + length pre - i)%nat with (length pre + 0)%nat in Hk by lia.
    rewrite firstn_app_2 in Hk. simpl in Hk. rewrite app_nil_r in Hk.
    eexists pre, s', _. repeat split; [exact L| |exact Hk].
    intros m v Hm. apply set_inv in Hm. destruct Hm as [[-> E]|Hm].
    + inversion E; subst. eapply Gn. exact L.
    + eapply C. exact Hm.
Qed.

Lemma exec_caps (G : nat -> str -> Prop) (r : re) (line : str)
      (m : captures) :
  groupsSat G r -> (forall v, G 0%nat v) ->
  exec r line = Some m -> capsSat G m.
Proof.
  intros HG H0 H. unfold exec in H. apply search_sound in H.
  destruct H as (sk & s' & -> & H). unfold attempt in H.
  apply (run_caps _ G (Grp 0 r)) in H.
  - destruct H as (pre & rest & c' & _ & _ & C & E). inversion E; subst.
    exact C.
  - simpl. auto.
  - intros n v Hn. exfalso. apply nth_error_In in Hn.
    apply repeat_spec in Hn. discriminate.
Qed.

Lemma componentRe_groups : groupsSat componentGroups componentRe.
Proof.
  simpl. unfold token. repeat split; intros; tauto.
Qed.

Lemma connectionRe_groups : groupsSat connectionGroups connectionRe.
Proof.
  simpl. unfold token. repeat split; intros; tauto.
Qed.

(** The entries of a component match. *)
Lemma componentMatch_tokens (line : str) (w n t : str)
      (v px py : option str) :
  exec componentRe line = Some [Some w; Some n; Some t; v; px; py] ->
  token word n /\ token word t /\
  (forall s, v = Some s -> token wordOrDot s) /\
  (forall s, px = Some s -> token digit s) /\
  (forall s, py = Some s -> token digit s).
Proof.
  intros H.
  pose proof (exec_caps _ _ _ _ componentRe_groups (fun _ => I) H) as C.
  split; [exact (C 1%nat n eq_refl)|].
  split; [exact (C 2%nat t eq_refl)|].
  split; [intros s ->; exact (C 3%nat s eq_refl)|].
  split; [intros s ->; exact (C 4%nat s eq_refl)|].
  intros s ->; exact (C 5%nat s eq_refl).
Qed.

Lemma connectionMatch_tokens (line : str) (w f t : str) :
  exec connectionRe line = Some [Some w; Some f; Some t] ->
  token word f /\ token word t.
Proof.
  intros H.
  pose proof (exec_caps _ _ _ _ connectionRe_groups (fun _ => I) H) as C.
  split; [exact (C 1%nat f eq_refl)|exact (C 2%nat t eq_refl)].
Qed.

Lemma lowerChar_word (c : N) : word c = true -> word (lowerChar c) = true.
Proof.
  unfold lowerChar. destruct ((65 <=? c) && (c <=? 90)) eqn:U; [|auto].
  intros _. apply andb_prop in U. destruct U as [U1 U2].
  apply N.leb_le in U1. apply N.leb_le in U2.
  unfold word. apply orb_true_iff. left. apply orb_true_iff. left.
  apply orb_true_iff. left. apply andb_true_iff.
  split; apply N.leb_le; lia.
Qed.

Lemma lowerChar_idem (c : N) : lowerChar (lowerChar c) = lowerChar c.
Proof.
  unfold lowerChar. destruct ((65 <=? c) && (c <=? 90)) eqn:U.
  - apply andb_prop in U. destruct U as [U1 U2].
    apply N.leb_le in U1. apply N.leb_le in U2.
    destruct (N.leb_spec (c + 32) 90); [lia|].
    rewrite andb_false_r. reflexivity.
  - rewrite U. reflexivity.
Qed.

Lemma toLowerCase_token (s : str) :
  token word s ->
  token word (toLowerCase s) /\ toLowerCase (toLowerCase s) = toLowerCase s.
Proof.
  intros [Hne Hw]. unfold token, toLowerCase. repeat split.
  - destruct s; [congruence|discriminate].
  - rewrite forallb_forall in *. intros c Hc. apply in_map_iff in Hc.
    destruct Hc as (d & <- & Hd). apply lowerChar_word, Hw, Hd.
  - rewrite map_map. apply map_ext. apply lowerChar_idem.
Qed.

End TokenFacts.

Module StringFacts.

Lemma trimStart_nil (s : str) :
  trimStart s = [] <-> forallb isWhiteSpace s = true.
Proof.
  induction s as [|c r IH]; simpl; [tauto|].
  destruct (isWhiteSpace c); simpl; [exact IH|].
  split; discriminate.
Qed.

Lemma trimStart_head (s : str) (c : N) (r : str) :
  trimStart s = c :: r -> isWhiteSpace c = false.
Proof.
  induction s as [|a t IH]; simpl; [discriminate|].
  destruct (isWhiteSpace a) eqn:E; [exact IH|].
  intros H. inversion H; subst. exact E.
Qed.

Lemma forallb_rev (p : N -> bool) (s : str) :
  forallb p (rev s) = forallb p s.
Proof.
  destruct (forallb p s) eqn:E.
  - rewrite forallb_forall in *. intros c Hc. apply E, in_rev, Hc.
  - destruct (forallb p (rev s)) eqn:E'; [|reflexivity].
    rewrite forallb_forall in E'.
    assert (forallb p s = true)
      by (apply forallb_forall; intros c Hc; apply E', in_rev;
          rewrite rev_involutive; exact Hc).
    congruence.
Qed.

(** The trimmed form is empty exactly for a string of white space. *)
Lemma trim_nil (s : str) : trim s = [] <-> forallb isWhiteSpace s = true.
Proof.
  unfold trim, trimEnd. split.
  - intros H. apply (f_equal (@rev N)) in H. rewrite rev_involutive in H.
    simpl in H. apply trimStart_nil in H. rewrite forallb_rev in H.
    destruct (trimStart s) as [|c r] eqn:E; [apply trimStart_nil, E|].
    apply trimStart_head in E. simpl in H. rewrite E in H. discriminate.
  - intros H. apply trimStart_nil in H. rewrite H. reflexivity.
Qed.



Lemma split_nonempty (sep : N) (s : str) : split sep s <> [].
Proof.
  induction s as [|c r IH]; simpl; [discriminate|].
  destruct (c =? sep); [discriminate|].
  destruct (split sep r); [contradiction|discriminate].
Qed.

(** Splitting a text at a separator splits the two sides. *)
Lemma split_app (sep : N) (a b : str) :
  split sep (a ++ sep :: b) = split sep a ++ split sep b.
Proof.
  induction a as [|c r IH]; simpl.
  - rewrite N.eqb_refl. reflexivity.
  - destruct (c =? sep); [rewrite IH; reflexivity|].
    rewrite IH. destruct (split sep r) as [|l ls] eqn:E.
    + exfalso. exact (split_nonempty _ _ E).
    + reflexivity.
Qed.

Lemma split_one (sep : N) (c : str) :
  ~ In sep c -> split sep c = [c].
Proof.
  induction c as [|a r IH]; simpl; intros H; [reflexivity|].
  destruct (N.eqb_spec a sep) as [->|Hne]; [tauto|].
  rewrite IH by tauto. reflexivity.
Qed.

Lemma split_chars (sep : N) (s : str) :
  forall l c, In l (split sep s) -> In c l -> In c s.
Proof.
  induction s as [|a r IH]; simpl; intros l c Hl Hc.
  - destruct Hl as [<-|[]]. contradiction.
  - destruct (a =? sep).
    + destruct Hl as [<-|Hl]; [contradiction|]. right. eapply IH; eassumption.
    + destruct (split sep r) as [|l0 ls] eqn:E.
      * destruct Hl as [<-|[]]. destruct Hc as [->|[]]. auto.
      * destruct Hl as [<-|Hl].
        -- destruct Hc as [->|Hc]; [auto|]. right.
           apply (IH l0); simpl; auto.
        -- right. apply (IH l); simpl; auto.
Qed.

Lemma filter_nil_all (A : Type) (p : A -> bool) (l : list A) :
  (forall a, In a l -> p a = false) -> filter p l = [].
Proof.
  induction l as [|a r IH]; simpl; intros H; [reflexivity|].
  rewrite (H a) by auto. apply IH. auto.
Qed.

(** A blank text has no significant line. *)
Lemma codeLines_blank (code : str) : trim code = [] -> codeLines code = [].
Proof.
  intros H. apply trim_nil in H. rewrite forallb_forall in H.
  unfold codeLines.
  assert (E : filter significant (split LF code) = []).
  { apply filter_nil_all. intros l Hl. unfold significant.
    assert (T : trim l = []).
    { apply trim_nil, forallb_forall. intros c Hc.
      apply H. eapply split_chars; eassumption. }
    rewrite T. reflexivity. }
  rewrite E. reflexivity.
Qed.

End StringFacts.

Module ParserMore.

Import RegexFacts ParserFacts TokenFacts StringFacts.

Lemma autoPosition_slot (e : CircuitEngine) :
  autoPosition e = slot (length (components e)).
Proof. reflexivity. Qed.

(** The stateful loop over the lines computes [records] and the declared
    connections. *)
Lemma parseLines_records_eq (lines : list str) :
  forall e,
    components (fold_left parseLine lines e)
    = components e ++ records (length (components e)) lines /\
    connections (fold_left parseLine lines e)
    = connections e ++ flat_map declaredConnection lines.
Proof.
  induction lines as [|l r IH]; intros e; simpl.
  - rewrite !app_nil_r. auto.
  - destruct (IH (parseLine e l)) as [Hc Hn]. rewrite Hc, Hn.
    unfold declaredConnection at 2.
    destruct (exec componentRe l) as [m|] eqn:Ec.
    + destruct (parseLine_component e _ _ Ec)
        as (w & n & t & v & px & py & -> & ->).
      assert (En : exec connectionRe l = None).
      { destruct (exec connectionRe l) eqn:En; [|reflexivity].
        rewrite (grammars_exclusive _ _ En) in Ec. discriminate. }
      rewrite En. simpl. rewrite length_app, <- app_assoc. simpl.
      rewrite autoPosition_slot. rewrite Nat.add_1_r. auto.
    + destruct (exec connectionRe l) as [m|] eqn:En.
      * destruct (parseLine_connection e _ _ En) as (w & f & t & -> & ->).
        simpl. rewrite <- app_assoc. auto.
      * rewrite parseLine_unmatched by assumption. auto.
Qed.

(** The lists of the engine after a call, as functions of the text. *)
Lemma parseCircuitCode_records (e : CircuitEngine) (code : str) :
  components (fst (parseCircuitCode e code)) = records 0 (codeLines code) /\
  connections (fst (parseCircuitCode e code))
  = flat_map declaredConnection (codeLines code).
Proof.
  destruct (trim code) as [|a t] eqn:T.
  - rewrite (codeLines_blank _ T). unfold parseCircuitCode. rewrite T.
    simpl. auto.
  - rewrite parseCircuitCode_engine by congruence.
    apply (parseLines_records_eq (codeLines code)
             (withConnections (withComponents e []) [])).
Qed.

(** The tokens of the records. *)
Lemma records_wellFormed (lines : list str) :
  forall k, Forall wellFormedComponent (records k lines).
Proof.
  induction lines as [|l r IH]; intros k; simpl; [constructor|].
  destruct (exec componentRe l)
    as [[|m0 [|[n|] [|[t|] [|v [|px [|py [|]]]]]]]|] eqn:E; auto.
  destruct m0 as [w|].
  - destruct (componentMatch_tokens _ _ _ _ _ _ _ E) as (Hn & Ht & Hv & _).
    constructor; [|apply IH].
    destruct (toLowerCase_token _ Ht) as [Hl Hi].
    unfold wellFormedComponent. simpl. repeat split; try assumption;
      try apply Hn; try apply Hl.
    destruct v as [s|]; [apply (Hv s eq_refl)|reflexivity].
  - destruct (componentMatch_shape _ _ E) as (w & ? & ? & ? & ? & ? & H).
    discriminate.
Qed.

Lemma declaredConnections_wellFormed (lines : list str) :
  Forall wellFormedConnection (flat_map declaredConnection lines).
Proof.
  induction lines as [|l r IH]; simpl; [constructor|].
  apply Forall_app. split; [|exact IH]. unfold declaredConnection.
  destruct (exec connectionRe l) as [m|] eqn:E; [|constructor].
  destruct (connectionMatch_shape _ _ E) as (w & f & t & ->).
  constructor; [|constructor].
  exact (connectionMatch_tokens _ _ _ _ E).
Qed.

(** The significant lines of a text with a line that is not significant
    inserted between two lines, before the first or after the last. *)
Lemma codeLines_insert (a b c : str) :
  ~ In LF c -> significant c = false ->
  codeLines (a ++ LF :: c ++ LF :: b) = codeLines (a ++ LF :: b) /\
  codeLines (c ++ LF :: b) = codeLines b /\
  codeLines (a ++ LF :: c) = codeLines a.
Proof.
  intros Hc Hs. unfold codeLines.
  rewrite !split_app, (split_one _ _ Hc), !filter_app. simpl.
  rewrite Hs, !app_nil_r. simpl. auto.
Qed.

Lemma trim_app_nonblank (a b : str) :
  trim a <> [] \/ trim b <> [] -> trim (a ++ b) <> [].
Proof.
  intros H E. apply trim_nil in E. rewrite forallb_app in E.
  apply andb_prop in E. destruct E as [Ea Eb].
  destruct H as [H|H]; apply H, trim_nil; assumption.
Qed.

(** Two texts that are not blank and have the same significant lines are
    parsed alike. *)
Lemma parseCircuitCode_codeLines (e : CircuitEngine) (c1 c2 : str) :
  trim c1 <> [] -> trim c2 <> [] -> codeLines c1 = codeLines c2 ->
  parseCircuitCode e c1 = parseCircuitCode e c2.
Proof.
  intros H1 H2 E. unfold parseCircuitCode. rewrite E.
  destruct (trim c1); [congruence|]. destruct (trim c2); [congruence|].
  reflexivity.
Qed.





End ParserMore.

Import TokenFacts StringFacts ParserMore.

(** X1.  What [parseCircuitCode] leaves in the engine and how it ends are a
    function of the text alone: the component list is [records 0], one
    record per component line in text order, each with the grid slot of the
    number of component lines before it; the connection list holds one
    record per connection line in text order.  Nothing is merged, dropped
    or reordered, and the call throws exactly when the text is blank or
    [records] is empty. *)
Theorem parseCircuitCode_pure (e : CircuitEngine) (code : str) :
  components (fst (parseCircuitCode e code)) = records 0 (codeLines code) /\
  connections (fst (parseCircuitCode e code))
  = flat_map declaredConnection (codeLines code) /\
  snd (parseCircuitCode e code)
  = match trim code with
    | [] => Throw "Please enter circuit code"
    | _ :: _ =>
        match records 0 (codeLines code) with
        | [] => Throw "No valid components found in code"
        | _ :: _ =>
            Return (records 0 (codeLines code),
                    flat_map declaredConnection (codeLines code))
        end
    end.
Proof.
  destruct (parseCircuitCode_records e code) as [Hc Hn].
  split; [exact Hc|]. split; [exact Hn|].
  revert Hc Hn. unfold parseCircuitCode.
  destruct (trim code) as [|a t]; [reflexivity|].
  destruct (Nat.eqb _ 0) eqn:Z; simpl; intros Hc Hn; rewrite <- Hc, <- Hn.
  - apply Nat.eqb_eq, length_zero_iff_nil in Z. rewrite Z. reflexivity.
  - apply Nat.eqb_neq in Z. destruct (components _); [contradiction|].
    reflexivity.
Qed.

(** X2.  In the component list of any parse, each coordinate field of the
    record at index [k] holds either a number that is neither 0 nor NaN, or
    the slot object of index [k] itself: the auto-position index is the
    record's own index in the list. *)
Theorem parsed_coordinates (e : CircuitEngine) (code : str) (k : nat)
        (c : component) :
  nth_error (components (fst (parseCircuitCode e code))) k = Some c ->
  coordinateOk k (x c) /\ coordinateOk k (y c).
Proof.
  rewrite (proj1 (parseCircuitCode_records e code)).
  change k with (0 + k)%nat at 2 3. generalize 0%nat as base.
  revert k. induction (codeLines code) as [|l r IH]; intros k base H.
  - destruct k; discriminate.
  - simpl in H.
    assert (Skip : nth_error (records base r) k = Some c ->
                   coordinateOk (base + k) (x c) /\
                   coordinateOk (base + k) (y c)).
    { clear H. intros H. destruct r as [|l' r'];
        [destruct k; discriminate|].
      destruct k as [|k].
      - exact (IH 0%nat base H).
      - exact (IH (S k) base H). }
    destruct (exec componentRe l)
      as [[|m0 [|[n|] [|[t|] [|v [|px [|py [|]]]]]]]|]; auto.
    destruct k as [|k]; simpl in H.
    + inversion H; subst. simpl. rewrite Nat.add_0_r.
      unfold coordinateOk, jsOr.
      split; [destruct (truthy (parseInt px)) eqn:E
             |destruct (truthy (parseInt py)) eqn:E]; eauto.
    + replace (base + S k)%nat with (S base + k)%nat by lia.
      apply IH. exact H.
Qed.

Lemma parsed_coordinates_witness :
  coordinateOk 1 (VPos 200 100) /\ coordinateOk 1 (VPos 200 100).
Proof.
  apply (parsed_coordinates newEngine example1 1
           {| name := lit "LED1"; type := lit "led"; value := lit "red";
              x := VPos 200 100; y := VPos 200 100 |}).
  vm_compute. reflexivity.
Defined.

(** X3.  Every record of any parse is made of tokens of the grammar: a
    component's name and type are non-empty strings of word characters, the
    type is in lower case, the value holds word characters and dots only;
    both names of a connection are non-empty strings of word characters. *)
Theorem parsed_tokens (e : CircuitEngine) (code : str) :
  Forall wellFormedComponent (components (fst (parseCircuitCode e code))) /\
  Forall wellFormedConnection (connections (fst (parseCircuitCode e code))).
Proof.
  destruct (parseCircuitCode_records e code) as [-> ->].
  split; [apply records_wellFormed|apply declaredConnections_wellFormed].
Qed.

(** X4.  A line that is blank or a full-line comment contributes nothing,
    not even to the auto-position order: inserting it between two lines,
    before the first line or after the last line of a text that is not
    blank leaves the engine and the result of [parseCircuitCode] as they
    are without it. *)
Theorem comment_lines_ignored (e : CircuitEngine) (a b c : str) :
  ~ In LF c -> significant c = false ->
  (trim (a ++ LF :: b) <> [] ->
   parseCircuitCode e (a ++ LF :: c ++ LF :: b)
   = parseCircuitCode e (a ++ LF :: b)) /\
  (trim b <> [] ->
   parseCircuitCode e (c ++ LF :: b) = parseCircuitCode e b) /\
  (trim a <> [] ->
   parseCircuitCode e (a ++ LF :: c) = parseCircuitCode e a).
Proof.
  intros Hc Hs. destruct (codeLines_insert a b c Hc Hs) as (E1 & E2 & E3).
  split; [|split]; intros T; apply parseCircuitCode_codeLines;
    try assumption.
  - intros E. apply T. apply trim_nil in E. apply trim_nil.
    rewrite forallb_forall in *. intros ch Hch. apply E.
    apply in_app_or in Hch. apply in_or_app.
    destruct Hch as [Hch|[<-|Hch]]; [auto|right; simpl; auto|].
    right. right. apply in_or_app. right. simpl. auto.
  - change (c ++ LF :: b) with (c ++ [LF] ++ b). rewrite app_assoc.
    apply trim_app_nonblank. auto.
  - apply trim_app_nonblank. auto.
Qed.

Lemma comment_lines_ignored_witness :
  parseCircuitCode newEngine
    (lit "R1: resistor" ++ LF :: lit "  // note" ++ LF :: lit "L1: led")
  = parseCircuitCode newEngine (lit "R1: resistor" ++ LF :: lit "L1: led").
Proof.
  apply (proj1 (comment_lines_ignored newEngine (lit "R1: resistor")
                  (lit "L1: led") (lit "  // note")
                  ltac:(vm_compute; intuition discriminate) eq_refl)).
  vm_compute. discriminate.
Defined.



(** * Further properties of the renderer *)

Module RenderMore.

Import RenderFacts.

Lemma drawComponents_prefix (cs : list component) :
  forall s,
    drawComponents s cs
    = (s ++ map drawnAs (drawnPrefix cs),
       match firstMissing cs with
       | None => Return tt
       | Some m => Throw ("this." ++ m ++ " is not a function")
       end).
Proof.
  induction cs as [|c r IH]; intros s; simpl.
  - rewrite app_nil_r. reflexivity.
  - unfold drawComponent, missingMethod.
    destruct (dispatch (type c)) as [sym|m] eqn:D; simpl.
    + rewrite IH, drawSymbol_groupOf, <- app_assoc.
      unfold drawnAs at 2. rewrite D. reflexivity.
    + rewrite app_nil_r. reflexivity.
Qed.

Lemma wireOf_length (cs : list component) (conn : connection) :
  length (wireOf cs conn)
  = match findByName cs (from conn), findByName cs (to conn) with
    | Some _, Some _ => 3%nat
    | _, _ => 0%nat
    end.
Proof.
  unfold wireOf.
  destruct (findByName cs (from conn)), (findByName cs (to conn));
    reflexivity.
Qed.


Lemma eqb_sym (a b : str) : eqb a b = eqb b a.
Proof.
  destruct (eqb a b) eqn:E.
  - apply eqb_eq in E. subst. symmetry. apply eqb_refl.
  - destruct (eqb b a) eqn:E'; [|reflexivity].
    apply eqb_eq in E'. subst. rewrite eqb_refl in E. discriminate.
Qed.



End RenderMore.

Import RenderMore.

(** X6.  The scene [generateCircuit] leaves is, in this order: the two grid
    elements; a line and two dots for each connection whose two names are
    found, in connection order; one group for each component up to the
    first whose method is missing.  The call ends normally exactly when no
    component lacks its method, and otherwise throws for the first that
    does, with every wire already drawn. *)
Theorem generateCircuit_scene (cs : list component)
        (conns : list connection) :
  generateCircuit cs conns
  = ([Defs; GridRect] ++ flat_map (wireOf cs) conns
     ++ map drawnAs (drawnPrefix cs),
     match firstMissing cs with
     | None => Return tt
     | Some m => Throw ("this." ++ m ++ " is not a function")
     end) /\
  (forall conn,
     length (wireOf cs conn)
     = match findByName cs (from conn), findByName cs (to conn) with
       | Some _, Some _ => 3%nat
       | _, _ => 0%nat
       end) /\
  (firstMissing cs = None -> drawnPrefix cs = cs).
Proof.
  split; [|split].
  - unfold generateCircuit. rewrite RenderFacts.drawConnections_wires.
    rewrite drawComponents_prefix, <- app_assoc. reflexivity.
  - apply wireOf_length.
  - induction cs as [|c r IH]; simpl; [reflexivity|].
    destruct (missingMethod c); [discriminate|].
    intros H. rewrite IH by exact H. reflexivity.
Qed.

Lemma generateCircuit_scene_witness :
  drawnPrefix example_dangling_components = example_dangling_components.
Proof.
  apply (proj2 (proj2 (generateCircuit_scene example_dangling_components
                         example_dangling_connections))).
  vm_compute. reflexivity.
Defined.



(** * The validator and the parser on the same text *)

Module AgreementFacts.

Import RegexFacts ParserFacts RenderFacts ValidatorFacts ParserMore.

(** The branch of the validator's callback a line takes, by what the parser
    does with the line. *)
Lemma classify_cases (l : str) :
  (significant l = false /\ classify l = Skipped) \/
  (significant l = true /\
   exists w n t v px py,
     exec componentRe (trim l) = Some [Some w; Some n; Some t; v; px; py] /\
     classify l = ComponentDecl n t) \/
  (significant l = true /\ exec componentRe (trim l) = None /\
   exists w f t,
     exec connectionRe (trim l) = Some [Some w; Some f; Some t] /\
     classify l = ConnectionDecl f t) \/
  (significant l = true /\ exec componentRe (trim l) = None /\
   exec connectionRe (trim l) = None /\ classify l = Malformed).
Proof.
  unfold significant, classify.
  destruct (trim l) as [|a t] eqn:T; [auto|].
  destruct (startsWith (a :: t) (lit "//")); [auto|]. right. simpl.
  destruct (exec componentRe (a :: t)) as [m|] eqn:Ec.
  - left. split; [reflexivity|].
    destruct (componentMatch_shape _ _ Ec) as (w & n & ty & v & px & py & ->).
    repeat eexists.
  - right. destruct (exec connectionRe (a :: t)) as [m|] eqn:En.
    + left. repeat split.
      destruct (connectionMatch_shape _ _ En) as (w & f & ty & ->).
      repeat eexists.
    + right. auto.
Qed.



Lemma records_names (lines : list str) :
  forall k, map name (records k lines) = flat_map declaredName lines.
Proof.
  induction lines as [|l r IH]; intros k; simpl; [reflexivity|].
  unfold declaredName at 1.
  destruct (exec componentRe l) as [m|] eqn:E; [|apply IH].
  destruct (componentMatch_shape _ _ E) as (w & n & t & v & px & py & ->).
  simpl. rewrite IH. reflexivity.
Qed.

Lemma has_In (s : list str) (n : str) : has s n = true <-> In n s.
Proof.
  unfold has. rewrite existsb_exists. split.
  - intros (m & Hm & E). apply eqb_eq in E. subst. exact Hm.
  - intros H. exists n. split; [exact H|apply eqb_refl].
Qed.

Lemma has_false (s : list str) (n : str) : has s n = false <-> ~ In n s.
Proof.
  rewrite <- has_In. destruct (has s n); split; congruence.
Qed.



End AgreementFacts.

Import AgreementFacts.




(** * Further properties of zoom and export *)

Module ZoomMore.

Import ZoomFacts.

Lemma zoomCalls_levels (cs : list zoomCall) :
  forall st,
    zoom (fst (zoomCalls st cs)) = fold_left levelStep cs (zoom (fst st)).
Proof.
  induction cs as [|c r IH]; intros st; simpl; [reflexivity|].
  rewrite IH. destruct c; reflexivity.
Qed.

(** After a call the page is scaled by the engine's factor. *)
Lemma zoomCalls_scale (cs : list zoomCall) :
  forall st,
    cs <> [] ->
    scale (snd (zoomCalls st cs)) = Some (zoom (fst (zoomCalls st cs))).
Proof.
  induction cs as [|c r IH]; intros st H; [congruence|]. simpl.
  destruct r as [|c' r'].
  - destruct c; reflexivity.
  - apply IH. discriminate.
Qed.

(** Twenty-five calls of one kind take every reachable factor to the
    limit. *)
Lemma zoomLevels_limits (z : float) :
  In z zoomLevels ->
  fold_left levelStep (repeat In_ 25) z = 3%float /\
  fold_left levelStep (repeat Out_ 25) z = 0.5%float.
Proof.
  intros H. unfold zoomLevels in H. simpl in H.
  repeat (destruct H as [<-|H]; [split; vm_compute; reflexivity|]).
  contradiction.
Qed.

End ZoomMore.

Import ZoomMore.

(** X9.  The limits of the zoom are reached and kept: from the initial
    factor 1 and after any sequence of zoom calls, twenty-five further
    [zoomIn] calls leave the factor at exactly 3 and twenty-five further
    [zoomOut] calls leave it at exactly 0.5; [zoomIn] at 3 and [zoomOut] at
    0.5 change nothing; and after every call the page's scale is the
    engine's factor. *)
Theorem zoom_limits (e : CircuitEngine) (p : page) (calls : list zoomCall) :
  zoom e = 1%float ->
  zoom (fst (zoomCalls (zoomCalls (e, p) calls) (repeat In_ 25))) = 3%float /\
  zoom (fst (zoomCalls (zoomCalls (e, p) calls) (repeat Out_ 25)))
  = 0.5%float /\
  (forall e' p', zoom e' = 3%float -> zoom (fst (zoomIn e' p')) = 3%float) /\
  (forall e' p',
     zoom e' = 0.5%float -> zoom (fst (zoomOut e' p')) = 0.5%float) /\
  (calls <> [] ->
   scale (snd (zoomCalls (e, p) calls))
   = Some (zoom (fst (zoomCalls (e, p) calls)))).
Proof.
  intros Hz.
  assert (Hin : In (zoom (fst (zoomCalls (e, p) calls))) zoomLevels).
  { apply ZoomFacts.zoomCalls_level. simpl. rewrite Hz.
    apply ZoomFacts.zoomLevels_initial. }
  destruct (zoomLevels_limits _ Hin) as [Si So].
  rewrite (zoomCalls_levels (repeat In_ 25)).
  rewrite (zoomCalls_levels (repeat Out_ 25)).
  split; [exact Si|]. split; [exact So|].
  split; [|split].
  - intros e' p' H. unfold zoomIn. cbn [fst zoom withZoom]. rewrite H.
    vm_compute. reflexivity.
  - intros e' p' H. unfold zoomOut. cbn [fst zoom withZoom]. rewrite H.
    vm_compute. reflexivity.
  - apply zoomCalls_scale.
Qed.

Lemma zoom_limits_witness :
  zoom (fst (zoomCalls
               (zoomCalls (newEngine, {| scene := []; scale := None |})
                          [Out_; Out_])
               (repeat In_ 25))) = 3%float.
Proof.
  exact (proj1 (zoom_limits newEngine {| scene := []; scale := None |}
                            [Out_; Out_] eq_refl)).
Defined.

Module ExportMore.

Lemma btoaAccepts_glyph (before after : str) :
  btoaAccepts (before ++ wifiGlyph ++ after) = false.
Proof.
  unfold btoaAccepts. rewrite forallb_app, forallb_app.
  rewrite andb_comm. reflexivity.
Qed.

End ExportMore.

(** X10.  Markup that holds a code unit above 255 cannot be exported as
    PNG: [btoa] throws before the image source is set, so exactly one error
    message is shown and nothing is downloaded, whatever the browser would
    have done with the image.  This is the case of every markup that holds
    the WiFi label of the ESP8266 symbol.  For markup [btoa] accepts, the
    success message comes first and the download only with the image's load
    event. *)
Theorem exportPNG_btoa (svgData : str) (ev : imageEvent) :
  (btoaAccepts svgData = false ->
   exists m, exportPNG svgData ev = [Message m "error"]) /\
  (forall before after,
     exists m,
       exportPNG (before ++ wifiGlyph ++ after) ev = [Message m "error"]) /\
  (btoaAccepts svgData = true ->
   exportPNG svgData ev
   = Message "Circuit exported as PNG successfully" "success"
     :: match ev with
        | Load => [Download "circuit-diagram.png"]
        | Error => []
        end).
Proof.
  assert (F : forall s, btoaAccepts s = false ->
                        exists m, exportPNG s ev = [Message m "error"]).
  { intros s H. unfold exportPNG, engineExportPNG. rewrite H.
    eexists. reflexivity. }
  split; [apply F|]. split.
  - intros before after. apply F, ExportMore.btoaAccepts_glyph.
  - intros H. unfold exportPNG, engineExportPNG. rewrite H.
    destruct ev; reflexivity.
Qed.

Lemma exportPNG_btoa_witness :
  (exists m,
     exportPNG (lit "<text>" ++ wifiGlyph ++ lit "</text>") Load
     = [Message m "error"]) /\
  exportPNG (lit "<svg></svg>") Load
  = [Message "Circuit exported as PNG successfully" "success";
     Download "circuit-diagram.png"].
Proof.
  split.
  - apply (proj1 (exportPNG_btoa (lit "<text>" ++ wifiGlyph ++ lit "</text>")
                                 Load)).
    vm_compute. reflexivity.
  - apply (proj2 (proj2 (exportPNG_btoa (lit "<svg></svg>") Load))).
    vm_compute. reflexivity.
Defined.

(** * The serial monitor of the simulation *)

Module SerialFacts.

Lemma tl_skipn1 (A : Type) (l : list A) : tl l = skipn 1 l.
Proof. destruct l; reflexivity. Qed.

Lemma lastn_length (A : Type) (n : nat) (l : list A) :
  (length (lastn n l) <= n)%nat.
Proof. unfold lastn. rewrite length_skipn. lia. Qed.

Lemma lastn_short (A : Type) (n : nat) (l : list A) :
  (length l <= n)%nat -> lastn n l = l.
Proof.
  intros H. unfold lastn. replace (length l - n)%nat with 0%nat by lia.
  reflexivity.
Qed.

(** Pushing onto the last hundred and shifting when there are more than a
    hundred keeps the last hundred. *)
Lemma lastn_push (A : Type) (l : list A) (m : A) :
  (if (100 <? length (lastn 100 l ++ [m]))%nat
   then tl (lastn 100 l ++ [m]) else lastn 100 l ++ [m])
  = lastn 100 (l ++ [m]).
Proof.
  destruct (Nat.le_gt_cases (length l) 99) as [Hs|Hl].
  - rewrite (lastn_short _ 100 l) by lia.
    rewrite (lastn_short _ 100 (l ++ [m])) by (rewrite length_app; simpl; lia).
    destruct (Nat.ltb_spec 100 (length (l ++ [m]))) as [H|H];
      [rewrite length_app in H; simpl in H; lia|reflexivity].
  - assert (L : length (lastn 100 l) = 100%nat)
      by (unfold lastn; rewrite length_skipn; lia).
    destruct (Nat.ltb_spec 100 (length (lastn 100 l ++ [m]))) as [H|H];
      [|rewrite length_app in H; simpl in H; lia].
    rewrite tl_skipn1, skipn_app, L. simpl (skipn (1 - 100) [m]).
    unfold lastn. rewrite skipn_skipn, length_app. simpl length.
    rewrite skipn_app.
    replace (length l + 1 - 100 - length l)%nat with 0%nat by lia.
    replace (1 + (length l - 100))%nat with (length l + 1 - 100)%nat by lia.
    reflexivity.
Qed.

Lemma addSerialMessage_present (st : serialMonitor) (t m c : str) :
  serialContent st = Some c ->
  addSerialMessage st t m
  = let kept :=
      if (100 <? length (serialOutput st ++ [serialLine (t, m)]))%nat
      then tl (serialOutput st ++ [serialLine (t, m)])
      else serialOutput st ++ [serialLine (t, m)] in
    {| serialOutput := kept; serialContent := Some (concat kept) |}.
Proof. intros H. unfold addSerialMessage. rewrite H. reflexivity. Qed.

Lemma addSerialMessages_lastn (msgs : list (str * str)) :
  forall st hist c,
    serialContent st = Some c ->
    serialOutput st = lastn 100 hist ->
    serialOutput (addSerialMessages st msgs)
    = lastn 100 (hist ++ map serialLine msgs) /\
    (msgs <> [] ->
     serialContent (addSerialMessages st msgs)
     = Some (concat (serialOutput (addSerialMessages st msgs)))).
Proof.
  induction msgs as [|[t m] r IH]; intros st hist c Hc Ho.
  - simpl. rewrite app_nil_r. split; [exact Ho|congruence].
  - simpl. rewrite (addSerialMessage_present st t m c Hc). cbv zeta.
    rewrite Ho, lastn_push.
    destruct (IH {| serialOutput := lastn 100 (hist ++ [serialLine (t, m)]);
                    serialContent :=
                      Some (concat (lastn 100 (hist ++ [serialLine (t, m)])))
                 |}
                 (hist ++ [serialLine (t, m)]) _ eq_refl eq_refl) as [H1 H2].
    rewrite <- app_assoc in H1. split; [exact H1|].
    intros _. destruct r as [|tm r']; [reflexivity|].
    apply H2. discriminate.
Qed.

Lemma addSerialMessages_absent (msgs : list (str * str)) :
  forall st, serialContent st = None -> addSerialMessages st msgs = st.
Proof.
  induction msgs as [|[t m] r IH]; intros st H; simpl; [reflexivity|].
  unfold addSerialMessage. rewrite H. apply IH, H.
Qed.

End SerialFacts.

(** X11.  The serial monitor keeps the last hundred lines: after any
    sequence of [addSerialMessage] calls on a monitor that held at most a
    hundred lines, [serialOutput] holds the last hundred of the old lines
    followed by the new ones, in order, and the element shows exactly their
    concatenation.  When the page has no [serial-content] element, the calls
    record nothing. *)
Theorem serial_keeps_last_hundred (st : serialMonitor)
        (msgs : list (str * str)) :
  (serialContent st <> None -> (length (serialOutput st) <= 100)%nat ->
   serialOutput (addSerialMessages st msgs)
   = lastn 100 (serialOutput st ++ map serialLine msgs) /\
   (length (serialOutput (addSerialMessages st msgs)) <= 100)%nat /\
   (msgs <> [] ->
    serialContent (addSerialMessages st msgs)
    = Some (concat (serialOutput (addSerialMessages st msgs))))) /\
  (serialContent st = None -> addSerialMessages st msgs = st).
Proof.
  split; [|apply SerialFacts.addSerialMessages_absent].
  intros Hc Hl. destruct (serialContent st) as [c|] eqn:E; [|congruence].
  destruct (SerialFacts.addSerialMessages_lastn msgs st (serialOutput st) c E)
    as [H1 H2].
  - symmetry. apply SerialFacts.lastn_short. exact Hl.
  - split; [exact H1|]. split; [|exact H2].
    rewrite H1. apply SerialFacts.lastn_length.
Qed.

Lemma serial_keeps_last_hundred_witness :
  (serialOutput
     (addSerialMessages fullMonitor
        [(lit "10:00:01", lit "Distance: 100");
         (lit "10:00:02", lit "Distance: 101")])
   = lastn 100 (serialOutput fullMonitor
                ++ map serialLine [(lit "10:00:01", lit "Distance: 100");
                                   (lit "10:00:02", lit "Distance: 101")]) /\
   (length (serialOutput
              (addSerialMessages fullMonitor
                 [(lit "10:00:01", lit "Distance: 100");
                  (lit "10:00:02", lit "Distance: 101")])) <= 100)%nat /\
   serialContent
     (addSerialMessages fullMonitor
        [(lit "10:00:01", lit "Distance: 100");
         (lit "10:00:02", lit "Distance: 101")])
   = Some (concat (serialOutput
                     (addSerialMessages fullMonitor
                        [(lit "10:00:01", lit "Distance: 100");
                         (lit "10:00:02", lit "Distance: 101")])))) /\
  addSerialMessages {| serialOutput := [lit "kept"]; serialContent := None |}
                    [(lit "10:00:01", lit "Distance: 100")]
  = {| serialOutput := [lit "kept"]; serialContent := None |}.
Proof.
  split.
  - destruct (proj1 (serial_keeps_last_hundred fullMonitor
                       [(lit "10:00:01", lit "Distance: 100");
                        (lit "10:00:02", lit "Distance: 101")]))
      as (A & B & C).
    + discriminate.
    + apply Nat.leb_le. vm_compute. reflexivity.
    + split; [exact A|]. split; [exact B|]. apply C. discriminate.
  - apply (proj2 (serial_keeps_last_hundred
                    {| serialOutput := [lit "kept"]; serialContent := None |}
                    [(lit "10:00:01", lit "Distance: 100")])).
    reflexivity.
Defined.

(** At the cap: two more lines push the two oldest out. *)
Example serial_full_monitor :
  serialOutput
    (addSerialMessages fullMonitor
       [(lit "10:00:01", lit "Distance: 100");
        (lit "10:00:02", lit "Distance: 101")])
  = skipn 2 (serialOutput fullMonitor)
    ++ [lit "[10:00:01] Distance: 100" ++ [LF];
        lit "[10:00:02] Distance: 101" ++ [LF]].
Proof. vm_compute. reflexivity. Qed.

(** * The page script: generating and analysing *)

Module PageFacts.

Import RegexFacts ParserFacts RenderFacts ValidatorFacts ParserMore.
Import AgreementFacts StringFacts.

(** How [parseCircuitCode] ends, as a function of the text. *)
Lemma parseCircuitCode_result (e : CircuitEngine) (code : str) :
  snd (parseCircuitCode e code)
  = match trim code with
    | [] => Throw "Please enter circuit code"
    | _ :: _ =>
        match records 0 (codeLines code) with
        | [] => Throw "No valid components found in code"
        | _ :: _ =>
            Return (records 0 (codeLines code),
                    flat_map declaredConnection (codeLines code))
        end
    end.
Proof.
  destruct (parseCircuitCode_records e code) as [Hc Hn].
  revert Hc Hn. unfold parseCircuitCode.
  destruct (trim code) as [|a t]; [reflexivity|].
  destruct (Nat.eqb _ 0) eqn:Z; simpl; intros Hc Hn; rewrite <- Hc, <- Hn.
  - apply Nat.eqb_eq, length_zero_iff_nil in Z. rewrite Z. reflexivity.
  - apply Nat.eqb_neq in Z. destruct (components _); [contradiction|].
    reflexivity.
Qed.

(** A text of skipped lines only has no diagnostic. *)
Lemma skipped_no_diagnostic (lines : list str) :
  (forall l, In l lines -> classify l = Skipped) ->
  forall names k, errs names k lines = [] /\ pend k lines = [].
Proof.
  induction lines as [|l r IH]; intros H names k; simpl; [auto|].
  rewrite (H l) by (simpl; auto). simpl.
  apply IH. intros l' Hl'. apply H. simpl. auto.
Qed.

Lemma validate_blank (code : str) :
  trim code = [] -> validateCircuitCode code = [].
Proof.
  intros T. unfold validateCircuitCode. rewrite diagnose_spec.
  assert (S : forall l, In l (split LF code) -> classify l = Skipped).
  { intros l Hl. unfold classify.
    assert (E : trim l = []).
    { apply trim_nil, forallb_forall. intros c Hc.
      apply trim_nil in T. rewrite forallb_forall in T. apply T.
      eapply split_chars; eassumption. }
    rewrite E. reflexivity. }
  destruct (skipped_no_diagnostic _ S [] 0%nat) as [-> ->]. reflexivity.
Qed.

(** On a text without diagnostics every declared type is in the
    enumeration. *)
Lemma errs_nil_types (lines : list str) :
  forall names k,
    errs names k lines = [] ->
    forall l n t,
      In l lines -> classify l = ComponentDecl n t ->
      isValidType (toLowerCase t) = true.
Proof.
  induction lines as [|l r IH]; intros names k H l' n t Hin C; simpl in *.
  - contradiction.
  - apply app_eq_nil in H. destruct H as [H1 H2].
    destruct Hin as [->|Hin]; [|eapply IH; eassumption].
    rewrite C in H1. simpl in H1. apply app_eq_nil in H1.
    destruct H1 as [_ H1].
    destruct (isValidType (toLowerCase t)); [reflexivity|discriminate].
Qed.

Lemma records_valid (lines : list str) :
  (forall l n t,
     In l lines -> classify l = ComponentDecl n t ->
     isValidType (toLowerCase t) = true) ->
  forall k,
    Forall (fun c => isValidType (type c) = true)
           (records k (map trim (filter significant lines))).
Proof.
  induction lines as [|l r IH]; intros H k; simpl; [constructor|].
  assert (Hr : forall k', Forall (fun c => isValidType (type c) = true)
                            (records k' (map trim (filter significant r)))).
  { apply IH. intros l' n t Hin. apply H. simpl. auto. }
  destruct (classify_cases l)
    as [(S & C)|[(S & w & n & t & v & px & py & E & C)
                |[(S & Ec & w & f & t & En & C)|(S & Ec & En & C)]]];
    rewrite S; simpl; rewrite ?E, ?Ec; try apply Hr.
  constructor; [|apply Hr]. simpl. apply (H l n t); simpl; auto.
Qed.

(** The counts of the [types] object. *)
Lemma bump_total (ts : list (str * nat)) (t : str) :
  totalCount (bump ts t) = S (totalCount ts).
Proof.
  unfold totalCount. induction ts as [|[k n] r IH]; simpl; [reflexivity|].
  destruct (eqb k t); simpl; [reflexivity|]. rewrite IH. lia.
Qed.

Lemma bump_countOf (ts : list (str * nat)) (t k : str) :
  countOf (bump ts t) k
  = (countOf ts k + if eqb t k then 1 else 0)%nat.
Proof.
  unfold countOf. induction ts as [|[k' n] r IH]; simpl.
  - destruct (eqb t k); reflexivity.
  - destruct (eqb k' t) eqn:E; simpl.
    + apply eqb_eq in E. subst k'. destruct (eqb t k); lia.
    + destruct (eqb k' k) eqn:E'; [|exact IH].
      apply eqb_eq in E'. subst k'.
      rewrite RenderMore.eqb_sym, E. lia.
Qed.

Lemma bump_keys (ts : list (str * nat)) (t : str) (P : str -> Prop) :
  P t -> Forall (fun kn => P (fst kn)) ts ->
  Forall (fun kn => P (fst kn)) (bump ts t).
Proof.
  intros Pt. induction ts as [|[k n] r IH]; intros H; simpl.
  - constructor; [exact Pt|constructor].
  - inversion H; subst. destruct (eqb k t); constructor; auto.
Qed.

Lemma typeCounts_spec (cs : list component) :
  forall ts,
    totalCount (fold_left (fun ts' c => bump ts' (type c)) cs ts)
    = (totalCount ts + length cs)%nat /\
    (forall k,
       countOf (fold_left (fun ts' c => bump ts' (type c)) cs ts) k
       = (countOf ts k
          + length (filter (fun c => eqb (type c) k) cs))%nat) /\
    (forall P : str -> Prop,
       Forall (fun c => P (type c)) cs ->
       Forall (fun kn => P (fst kn)) ts ->
       Forall (fun kn => P (fst kn))
              (fold_left (fun ts' c => bump ts' (type c)) cs ts)).
Proof.
  induction cs as [|c r IH]; intros ts; simpl.
  - repeat split; auto; intros; lia.
  - destruct (IH (bump ts (type c))) as (H1 & H2 & H3).
    rewrite H1, bump_total. split; [lia|]. split.
    + intros k. rewrite H2, bump_countOf.
      destruct (eqb (type c) k); simpl; lia.
    + intros P Hc Hts. inversion Hc; subst.
      apply H3; [assumption|]. apply bump_keys; assumption.
Qed.




End PageFacts.

Import PageFacts.



(** X13.  [analyzeCircuit] validates first and parses only a text without
    diagnostics.  With diagnostics it returns [false], shows them as one
    error message and leaves the engine alone.  Without diagnostics but
    with no component line (a blank or comment-only text) the parser's
    error leaves the function uncaught, with no message shown.  Otherwise
    it returns the analysis: the two counts are the numbers of component
    and connection lines, every key of [types] is a type of the
    enumeration, each count is the number of components of that type, and
    the counts add up to the number of components. *)
Theorem analyzeCircuit_behaviour (e : CircuitEngine) (code : str) :
  (validateCircuitCode code <> [] ->
   fst (fst (analyzeCircuit e code)) = e /\
   snd (analyzeCircuit e code) = Return NoAnalysis /\
   snd (fst (analyzeCircuit e code))
   = [(lit "Circuit validation found issues:" ++ [LF]
       ++ join [LF] (validateCircuitCode code), "error")]) /\
  (trim code = [] ->
   snd (analyzeCircuit e code) = Throw "Please enter circuit code" /\
   snd (fst (analyzeCircuit e code)) = []) /\
  (validateCircuitCode code = [] -> trim code <> [] ->
   records 0 (codeLines code) = [] ->
   snd (analyzeCircuit e code) = Throw "No valid components found in code" /\
   snd (fst (analyzeCircuit e code)) = []) /\
  (validateCircuitCode code = [] -> records 0 (codeLines code) <> [] ->
   snd (analyzeCircuit e code)
   = Return (Analysis (length (records 0 (codeLines code)))
                      (length (flat_map declaredConnection (codeLines code)))
                      (typeCounts (records 0 (codeLines code)))) /\
   totalCount (typeCounts (records 0 (codeLines code)))
   = length (records 0 (codeLines code)) /\
   (forall k,
      countOf (typeCounts (records 0 (codeLines code))) k
      = length (filter (fun c => eqb (type c) k)
                       (records 0 (codeLines code)))) /\
   Forall (fun kn => isValidType (fst kn) = true)
          (typeCounts (records 0 (codeLines code)))).
Proof.
  pose proof (parseCircuitCode_result e code) as R.
  split; [|split; [|split]].
  - intros V. unfold analyzeCircuit.
    destruct (validateCircuitCode code); [congruence|]. auto.
  - intros T. unfold analyzeCircuit. rewrite (validate_blank _ T).
    rewrite T in R. destruct (parseCircuitCode e code) as [e1 r].
    simpl in R. subst r. auto.
  - intros V T E. unfold analyzeCircuit. rewrite V.
    destruct (trim code); [congruence|]. rewrite E in R.
    destruct (parseCircuitCode e code) as [e1 r]. simpl in R. subst r. auto.
  - intros V E.
    assert (T : trim code <> []).
    { intros T. apply codeLines_blank in T. rewrite T in E. auto. }
    destruct (typeCounts_spec (records 0 (codeLines code)) [])
      as (H1 & H2 & H3).
    split; [|split; [exact H1|split; [exact H2|]]].
    + unfold analyzeCircuit. rewrite V.
      destruct (trim code); [congruence|].
      destruct (records 0 (codeLines code)) eqn:E'; [congruence|].
      destruct (parseCircuitCode e code) as [e1 r]. simpl in R. subst r.
      reflexivity.
    + apply (H3 (fun t => isValidType t = true)); [|constructor].
      unfold codeLines. apply records_valid.
      unfold validateCircuitCode in V. apply map_eq_nil in V.
      rewrite ValidatorFacts.diagnose_spec in V. apply app_eq_nil in V.
      destruct V as [V _]. intros l n t.
      apply (errs_nil_types _ _ _ V).
Qed.

Lemma analyzeCircuit_behaviour_witness :
  (fst (fst (analyzeCircuit newEngine (lit "A -> B"))) = newEngine /\
   snd (analyzeCircuit newEngine (lit "A -> B")) = Return NoAnalysis /\
   snd (fst (analyzeCircuit newEngine (lit "A -> B")))
   = [(lit "Circuit validation found issues:" ++ [LF]
       ++ join [LF] (validateCircuitCode (lit "A -> B")), "error")]) /\
  (snd (analyzeCircuit newEngine (lit "   "))
   = Throw "Please enter circuit code" /\
   snd (fst (analyzeCircuit newEngine (lit "   "))) = []) /\
  (snd (analyzeCircuit newEngine (lit "// nothing yet"))
   = Throw "No valid components found in code" /\
   snd (fst (analyzeCircuit newEngine (lit "// nothing yet"))) = []) /\
  (snd (analyzeCircuit newEngine example1)
   = Return (Analysis (length (records 0 (codeLines example1)))
                      (length (flat_map declaredConnection
                                        (codeLines example1)))
                      (typeCounts (records 0 (codeLines example1)))) /\
   totalCount (typeCounts (records 0 (codeLines example1)))
   = length (records 0 (codeLines example1)) /\
   (forall k,
      countOf (typeCounts (records 0 (codeLines example1))) k
      = length (filter (fun c => eqb (type c) k)
                       (records 0 (codeLines example1)))) /\
   Forall (fun kn => isValidType (fst kn) = true)
          (typeCounts (records 0 (codeLines example1)))).
Proof.
  split; [|split; [|split]].
  - apply (proj1 (analyzeCircuit_behaviour newEngine (lit "A -> B"))).
    vm_compute. discriminate.
  - apply (proj1 (proj2 (analyzeCircuit_behaviour newEngine (lit "   ")))).
    vm_compute. reflexivity.
  - apply (proj1 (proj2 (proj2 (analyzeCircuit_behaviour
                                  newEngine (lit "// nothing yet"))))).
    + vm_compute. reflexivity.
    + vm_compute. discriminate.
    + vm_compute. reflexivity.
  - apply (proj2 (proj2 (proj2 (analyzeCircuit_behaviour
                                  newEngine example1)))).
    + vm_compute. reflexivity.
    + vm_compute. discriminate.
Defined.

Example analyzeCircuit_example :
  snd (analyzeCircuit newEngine
         (text ["R1: resistor 330"; "R2: RESISTOR 1k"; "L1: led red";
                "R1 -> L1"]))
  = Return (Analysis 3 1 [(lit "resistor", 2%nat); (lit "led", 1%nat)]).
Proof. vm_compute. reflexivity. Qed.

(** * Texts put together *)

Module TextFacts.

Import RegexFacts ParserFacts ParserMore StringFacts.

Lemma records_app (l1 l2 : list str) :
  forall k,
    records k (l1 ++ l2)
    = records k l1 ++ records (k + length (records k l1)) l2.
Proof.
  induction l1 as [|l r IH]; intros k; simpl.
  - rewrite Nat.add_0_r. reflexivity.
  - destruct (exec componentRe l)
      as [[|m0 [|[n|] [|[t|] [|v [|px [|py [|]]]]]]]|]; try apply IH.
    simpl. rewrite IH. simpl.
    rewrite Nat.add_succ_r. reflexivity.
Qed.

Lemma codeLines_app (a b : str) :
  codeLines (a ++ LF :: b) = codeLines a ++ codeLines b.
Proof.
  unfold codeLines. rewrite split_app, filter_app, map_app. reflexivity.
Qed.

Lemma split_join (ls : list str) :
  ls <> [] -> Forall (fun l => ~ In LF l) ls ->
  split LF (join [LF] ls) = ls.
Proof.
  induction ls as [|a r IH]; intros Hne H; [congruence|].
  inversion H; subst. destruct r as [|b r'].
  - simpl. apply split_one. assumption.
  - change (join [LF] (a :: b :: r')) with (a ++ LF :: join [LF] (b :: r')).
    rewrite split_app, (split_one _ _ H2), IH; [reflexivity|discriminate|].
    assumption.
Qed.

(** A text is blank exactly when each of its lines is. *)
Lemma blank_lines (code : str) :
  trim code = [] <-> Forall (fun t => t = []) (map trim (split LF code)).
Proof.
  rewrite trim_nil. induction code as [|c r IH]; simpl.
  - split; [intros _; constructor; [reflexivity|constructor]|reflexivity].
  - destruct (N.eqb_spec c LF) as [->|Hne].
    + simpl. rewrite IH. split.
      * intros H. constructor; [reflexivity|exact H].
      * intros H. inversion H; assumption.
    + destruct (split LF r) as [|l ls] eqn:E;
        [exfalso; exact (split_nonempty _ _ E)|].
      simpl in *. rewrite andb_true_iff, IH. split.
      * intros [Hc H]. inversion H; subst. constructor; [|assumption].
        apply trim_nil. simpl. rewrite Hc. apply trim_nil. assumption.
      * intros H. inversion H as [|? ? Ht Hr]; subst.
        apply trim_nil in Ht. simpl in Ht. apply andb_true_iff in Ht.
        destruct Ht as [Hc Hl]. split; [exact Hc|].
        constructor; [apply trim_nil; exact Hl|assumption].
Qed.

Lemma significant_trim (a b : str) :
  trim a = trim b -> significant a = significant b.
Proof. intros H. unfold significant. rewrite H. reflexivity. Qed.

Lemma filter_by_trim (l1 : list str) :
  forall l2, map trim l1 = map trim l2 ->
  map trim (filter significant l1) = map trim (filter significant l2).
Proof.
  induction l1 as [|a r IH]; intros [|b r2] H; simpl in *;
    try discriminate; [reflexivity|].
  injection H as Hab Hr. rewrite (significant_trim _ _ Hab).
  destruct (significant b); simpl; rewrite ?Hab, (IH _ Hr); reflexivity.
Qed.

(** The parser sees a text through the trimmed forms of its lines. *)
Lemma parseCircuitCode_by_trim (e : CircuitEngine) (code1 code2 : str) :
  map trim (split LF code1) = map trim (split LF code2) ->
  parseCircuitCode e code1 = parseCircuitCode e code2.
Proof.
  intros H.
  assert (L : codeLines code1 = codeLines code2)
    by (apply filter_by_trim; exact H).
  assert (B : trim code1 = [] <-> trim code2 = [])
    by (rewrite !blank_lines, H; tauto).
  unfold parseCircuitCode. rewrite L.
  destruct (trim code1) as [|a1 t1]; destruct (trim code2) as [|a2 t2];
    try reflexivity.
  - destruct B as [B _]. discriminate (B eq_refl).
  - destruct B as [_ B]. discriminate (B eq_refl).
Qed.

(** A carriage return at the end of a line is trimmed away. *)
Lemma trim_snoc_space (l : str) (c : N) :
  isWhiteSpace c = true -> trim (l ++ [c]) = trim l.
Proof.
  intros W. unfold trim.
  assert (E : forall s, trimEnd (s ++ [c]) = trimEnd s).
  { intros s. unfold trimEnd. rewrite rev_app_distr. simpl. rewrite W.
    reflexivity. }
  destruct (trimStart l) as [|a t] eqn:T.
  - assert (T' : trimStart (l ++ [c]) = []).
    { apply trimStart_nil. rewrite forallb_app. simpl. rewrite W.
      apply trimStart_nil in T. rewrite T. reflexivity. }
    rewrite T'. reflexivity.
  - assert (T' : trimStart (l ++ [c]) = trimStart l ++ [c]).
    { clear E. revert T. induction l as [|x r IH]; simpl; [discriminate|].
      destruct (isWhiteSpace x); [exact IH|reflexivity]. }
    rewrite T', T. apply E.
Qed.


Lemma lines_crlf (ls : list str) :
  ls <> [] -> Forall (fun l => ~ In LF l) ls ->
  map trim (split LF (join [CR; LF] ls)) = map trim ls.
Proof.
  induction ls as [|a r IH]; intros Hne H; [congruence|].
  inversion H; subst. destruct r as [|b r'].
  - simpl. rewrite split_one by assumption. reflexivity.
  - change (join [CR; LF] (a :: b :: r'))
      with (a ++ CR :: LF :: join [CR; LF] (b :: r')).
    replace (a ++ CR :: LF :: join [CR; LF] (b :: r'))
      with ((a ++ [CR]) ++ LF :: join [CR; LF] (b :: r'))
      by (rewrite <- app_assoc; reflexivity).
    rewrite split_app, map_app, IH; [|discriminate|assumption].
    rewrite split_one.
    + simpl. rewrite trim_snoc_space by reflexivity. reflexivity.
    + intros Hin. apply in_app_or in Hin. destruct Hin as [Hin|[Hin|[]]];
        [tauto|discriminate].
Qed.









End TextFacts.

Import TextFacts.

(** X14.  Parsing two texts joined by a line feed gives the components of
    the first followed by those of the second, the latter taking their grid
    slots counted on from the number of components of the first; the
    connections of the two follow one another, and so do the names. *)
Theorem parseCircuitCode_concat (e : CircuitEngine) (a b : str) :
  let ea := fst (parseCircuitCode e a) in
  let eb := fst (parseCircuitCode e b) in
  let eab := fst (parseCircuitCode e (a ++ LF :: b)) in
  components eab
  = components ea ++ records (length (components ea)) (codeLines b) /\
  connections eab = connections ea ++ connections eb /\
  map name (components eab)
  = map name (components ea) ++ map name (components eb).
Proof.
  cbv zeta.
  destruct (parseCircuitCode_records e a) as [Ca Na].
  destruct (parseCircuitCode_records e b) as [Cb Nb].
  destruct (parseCircuitCode_records e (a ++ LF :: b)) as [Cab Nab].
  rewrite Cab, Nab, Ca, Na, Cb, Nb, codeLines_app, records_app.
  rewrite flat_map_app, map_app.
  repeat split; try reflexivity.
  rewrite !AgreementFacts.records_names. reflexivity.
Qed.

(** X15.  The parser sees a text only through the trimmed forms of its
    lines: two texts whose lines agree after trimming leave the engine in
    the same state and end the call alike. *)
Theorem line_padding_ignored (e : CircuitEngine) (code1 code2 : str) :
  map trim (split LF code1) = map trim (split LF code2) ->
  parseCircuitCode e code1 = parseCircuitCode e code2.
Proof. apply parseCircuitCode_by_trim. Qed.

Lemma line_padding_ignored_witness :
  parseCircuitCode newEngine
    (lit "  R1: resistor 1k  " ++ LF :: [9] ++ lit "R1 -> L1" ++ [32; 32])
  = parseCircuitCode newEngine
      (lit "R1: resistor 1k" ++ LF :: lit "R1 -> L1").
Proof.
  apply (line_padding_ignored newEngine
           (lit "  R1: resistor 1k  " ++ LF :: [9] ++ lit "R1 -> L1"
            ++ [32; 32])
           (lit "R1: resistor 1k" ++ LF :: lit "R1 -> L1")).
  vm_compute. reflexivity.
Defined.

(** X16.  Line endings of carriage return and line feed parse as line feeds
    alone do. *)
Theorem crlf_line_endings (e : CircuitEngine) (ls : list str) :
  Forall (fun l => ~ In LF l) ls ->
  parseCircuitCode e (join [CR; LF] ls) = parseCircuitCode e (join [LF] ls).
Proof.
  intros H. destruct ls as [|a r]; [reflexivity|].
  apply parseCircuitCode_by_trim.
  rewrite lines_crlf by (assumption || discriminate).
  rewrite split_join by (assumption || discriminate). reflexivity.
Qed.

Lemma crlf_line_endings_witness :
  parseCircuitCode newEngine
    (join [CR; LF] [lit "V1: battery 9V"; lit "R1: resistor 1k";
                    lit "V1 -> R1"])
  = parseCircuitCode newEngine
      (join [LF] [lit "V1: battery 9V"; lit "R1: resistor 1k";
                  lit "V1 -> R1"]).
Proof.
  apply (crlf_line_endings newEngine
           [lit "V1: battery 9V"; lit "R1: resistor 1k"; lit "V1 -> R1"]).
  repeat (apply Forall_cons; [vm_compute; intuition discriminate|]).
  apply Forall_nil.
Defined.





(** The button in the example: the new record follows the battery. *)
Example insertComponent_at_end :
  snd (parseCircuitCode newEngine
         (insertComponent "led" (lit "V1: battery 9V") 14))
  = Return ([ {| name := lit "V1"; type := lit "battery"; value := lit "9V";
                 x := VPos 100 100; y := VPos 100 100 |};
              {| name := lit "LED1"; type := lit "led"; value := lit "red";
                 x := VPos 200 100; y := VPos 200 100 |} ], []).
Proof. vm_compute. reflexivity. Qed.

(** With the cursor inside a line the button cuts the line in two: here the
    declaration of [R1] is lost and the text parses to the new record
    alone. *)
Example insertComponent_inside_line :
  snd (parseCircuitCode newEngine (lit "R1: led"))
  = Return ([ {| name := lit "R1"; type := lit "led"; value := [];
                 x := VPos 100 100; y := VPos 100 100 |} ], []) /\
  lineBoundary (lit "R1: led") 3 = false /\
  snd (parseCircuitCode newEngine (insertComponent "led" (lit "R1: led") 3))
  = Return ([ {| name := lit "LED1"; type := lit "led"; value := lit "red";
                 x := VPos 100 100; y := VPos 100 100 |} ], []).
Proof. repeat split; vm_compute; reflexivity. Qed.



(** With the cursor inside a line the ultrasonic button cuts the line in
    two: here a line that was no declaration becomes one. *)
Example insertComponent_ultrasonic_inside_line :
  snd (parseCircuitCode newEngine (lit "R1: led x y"))
  = Throw "No valid components found in code" /\
  lineBoundary (lit "R1: led x y") 9 = false /\
  snd (parseCircuitCode newEngine
         (insertComponent "ultrasonic" (lit "R1: led x y") 9))
  = Return ([ {| name := lit "R1"; type := lit "led"; value := lit "x";
                 x := VPos 100 100; y := VPos 100 100 |} ], []).
Proof. repeat split; vm_compute; reflexivity. Qed.
